(** * The co-author input of the commit form

    A shallow embedding of [app/src/ui/lib/author-input.tsx]: the
    conversion of lookup hits into authors, the suggestion filter, and
    the event handlers of the [AuthorInput] component, written as state
    transformers over the part of the world the component reads and
    writes. *)

From Stdlib Require Import Ascii String List ZArith Bool Lia.
Import ListNotations.

Local Open Scope Z_scope.
Local Open Scope list_scope.

(** ** Data model *)

Inductive UnknownAuthorState : Type := searching | error.

(** Modelled from the spec: the [KnownAuthor] declaration of
    [models/author] is not part of the sources at hand.  A fully
    resolved identity with [name], [email] and [username]; the source
    reads [username] through [?.], so it may be absent. *)
Record KnownAuthor : Type := mkKnownAuthor {
  known_name : string;
  known_email : string;
  known_username : option string
}.

(** Modelled from the spec: the [UnknownAuthor] declaration of
    [models/author]: a [username] and a [state] that is either
    [searching] or [error]. *)
Record UnknownAuthor : Type := mkUnknownAuthor {
  unknown_username : string;
  unknown_state : UnknownAuthorState
}.

(** Modelled from the spec: the tagged union [Author] of
    [models/author], [kind: 'known'] or [kind: 'unknown']. *)
Inductive Author : Type :=
| Known (a : KnownAuthor)
| Unknown (a : UnknownAuthor).

(** Modelled from the spec: the type guard [isKnownAuthor] of
    [models/author], which tells the two variants of [Author] apart. *)
Definition isKnownAuthor (a : Author) : bool :=
  match a with
  | Known _ => true
  | Unknown _ => false
  end.

(** [a.username], a string or nothing. *)
Definition username (a : Author) : option string :=
  match a with
  | Known k => known_username k
  | Unknown u => Some (unknown_username u)
  end.

(** Modelled from the spec: the [KnownUserHit] declaration of
    [../autocompletion]: a directory identity with display name,
    optional public email, username and originating endpoint. *)
Record KnownUserHit : Type := mkKnownUserHit {
  hit_username : string;
  hit_name : string;
  hit_email : option string;
  hit_endpoint : string
}.

(** Modelled from the spec: the tagged union [UserHit] of
    [../autocompletion], [kind: 'known-user'] or the free-text echo
    [kind: 'unknown-user'] that carries a username only. *)
Inductive UserHit : Type :=
| KnownUser (h : KnownUserHit)
| UnknownUser (name : string).

Definition item_username (item : UserHit) : string :=
  match item with
  | KnownUser h => hit_username h
  | UnknownUser u => u
  end.

(** ** JavaScript values used by the component *)

(** [x === y] where either side is a string or [undefined]/[null]
    coming out of [?.]. *)
Definition strictEq (x y : option string) : bool :=
  match x, y with
  | Some s, Some t => String.eqb s t
  | None, None => true
  | _, _ => false
  end.

(** [s.length > 0] *)
Definition nonEmpty (s : string) : bool := (0 <? String.length s)%nat.

(** [a || b] on strings: the empty string is falsy. *)
Definition orElse (a b : string) : string :=
  if nonEmpty a then a else b.

(** [Array.prototype.slice]: a negative bound counts from the end, and
    both bounds are clamped to the array. *)
Definition relativeIndex (len i : Z) : Z :=
  if i <? 0 then Z.max (len + i) 0 else Z.min i len.

Definition slice {A : Type} (l : list A) (start : Z) (stop : option Z) : list A :=
  let len := Z.of_nat (length l) in
  let k := relativeIndex len start in
  let final := match stop with
               | Some e => relativeIndex len e
               | None => len
               end in
  firstn (Z.to_nat (final - k)) (skipn (Z.to_nat k) l).

(** ** The state the component works on *)

(** The [HTMLInputElement] behind [inputRef]. *)
Record InputElement : Type := mkInput {
  value : string;
  selectionStart : Z
}.

(** What a handler can read and write: [props.authors],
    [state.focusedAuthorIndex], [inputRef], and two traces, the
    arguments of every [props.onAuthorsUpdated] call and of every
    [autoCompleteProvider.exactMatch] call, oldest first. *)
Record World : Type := mkWorld {
  authors : list Author;
  focusedAuthorIndex : option Z;
  inputRef : option InputElement;
  updates : list (list Author);
  lookups : list string
}.

Definition M (A : Type) : Type := World -> A * World.

Definition ret {A : Type} (a : A) : M A := fun w => (a, w).

Definition bind {A B : Type} (m : M A) (k : A -> M B) : M B :=
  fun w => let (a, w') := m w in k a w'.

Definition gets {A : Type} (f : World -> A) : M A := fun w => (f w, w).

Definition exec {A : Type} (m : M A) (w : World) : World := snd (m w).

Declare Scope handler_scope.
Delimit Scope handler_scope with handler.
Notation "x <- m ;; k" := (bind m (fun x => k))
  (at level 61, m at next level, right associativity) : handler_scope.
Notation "m ;; k" := (bind m (fun _ => k))
  (at level 61, right associativity) : handler_scope.
Local Open Scope handler_scope.

Definition when (b : bool) (m : M unit) : M unit :=
  if b then m else ret tt.

(** [this.setState({ focusedAuthorIndex: index })] *)
Definition setFocusedAuthorIndex (index : option Z) : M unit :=
  fun w => (tt, mkWorld (authors w) index (inputRef w) (updates w) (lookups w)).

(** [this.inputRef.value = ''].  The caret of an input cannot lie past
    its text, so it is at zero afterwards. *)
Definition clearInput : M unit :=
  fun w =>
    (tt, mkWorld (authors w) (focusedAuthorIndex w)
           (match inputRef w with
            | Some _ => Some (mkInput EmptyString 0)
            | None => None
            end)
           (updates w) (lookups w)).

(** The call [autoCompleteProvider.exactMatch(login)] up to its
    [await]: the request is on its way. *)
Definition exactMatch (login : string) : M unit :=
  fun w =>
    (tt, mkWorld (authors w) (focusedAuthorIndex w) (inputRef w)
           (updates w) (lookups w ++ [login])).

(** ** Reference instances of the host functions

    Used to run the component on concrete inputs. *)

Definition lowerChar (c : Ascii.ascii) : Ascii.ascii :=
  let n := Ascii.nat_of_ascii c in
  if ((65 <=? n) && (n <=? 90))%nat then Ascii.ascii_of_nat (n + 32) else c.

Fixpoint asciiToLowerCase (s : string) : string :=
  match s with
  | EmptyString => EmptyString
  | String c rest => String (lowerChar c) (asciiToLowerCase rest)
  end.

Fixpoint dropSpaces (s : string) : string :=
  match s with
  | String c rest => if Ascii.eqb c " "%char then dropSpaces rest else s
  | EmptyString => EmptyString
  end.

Fixpoint reverse (s acc : string) : string :=
  match s with
  | EmptyString => acc
  | String c rest => reverse rest (String c acc)
  end.

Definition trimSpaces (s : string) : string :=
  reverse (dropSpaces (reverse (dropSpaces s) EmptyString)) EmptyString.

Definition sampleStealthEmail (login endpoint : string) : string :=
  String.append login (String.append "@users.noreply."%string endpoint).

(** An owner that hands the new list down on a later render. *)
Definition rendersLater (current next : list Author) : list Author := current.

(** An owner that hands the new list down before the callback returns. *)
Definition rendersAtOnce (current next : list Author) : list Author := next.

(** ** Sample data *)

Definition amy : KnownAuthor :=
  {| known_name := "Amy"; known_email := "amy@x"; known_username := Some "amy"%string |}.

Definition amyHit : KnownUserHit :=
  {| hit_username := "amy"; hit_name := "Amy";
     hit_email := Some "amy@x"%string; hit_endpoint := "api.example" |}.

Definition bobHit : KnownUserHit :=
  {| hit_username := "bob"; hit_name := "";
     hit_email := None; hit_endpoint := "api.example" |}.

Definition pending (login : string) : UnknownAuthor :=
  {| unknown_username := login; unknown_state := searching |}.

Definition failed (login : string) : UnknownAuthor :=
  {| unknown_username := login; unknown_state := error |}.

(** A mounted component showing [l], with [text] typed and the caret
    at its end, and nothing called yet. *)
Definition typing (l : list Author) (text : string) : World :=
  {| authors := l;
     focusedAuthorIndex := None;
     inputRef := Some {| value := text;
                         selectionStart := Z.of_nat (String.length text) |};
     updates := [];
     lookups := [] |}.

(** A mounted component showing [l] with the token at [index] focused,
    an empty text field, and nothing called yet. *)
Definition focused (l : list Author) (index : Z) : World :=
  {| authors := l;
     focusedAuthorIndex := Some index;
     inputRef := Some {| value := EmptyString; selectionStart := 0 |};
     updates := [];
     lookups := [] |}.

Definition threeTokens : list Author :=
  [Known amy; Unknown (pending "bob"); Unknown (pending "carol")].

(** ** The default branch of a remote

    [getRemoteHEAD] of the remote helpers. *)

Section Remote.

Variable Repository : Type.

(** [getSymbolicRef] of [./refs]: the ref a symbolic ref points to, or
    nothing. *)
Variable getSymbolicRef : Repository -> string -> option string.

Definition getRemoteHEAD (repository : Repository) (remote : string)
  : option string :=
  let remoteNamespace :=
    String.append "refs/remotes/" (String.append remote "/") in
  match getSymbolicRef repository (String.append remoteNamespace "HEAD") with
  | Some ref =>
      if (String.length remoteNamespace <? String.length ref)%nat
         && String.prefix remoteNamespace ref
      then Some (String.substring (String.length remoteNamespace)
                   (String.length ref - String.length remoteNamespace) ref)
      else None
  | None => None
  end.

End Remote.

Section AuthorInput.

(** [String.prototype.toLowerCase] and [String.prototype.trim]. *)
Variable toLowerCase : string -> string.
Variable trim : string -> string.

(** [getLegacyStealthEmailForUser] of [lib/email], applied to a
    username and an endpoint. *)
Variable getLegacyStealthEmailForUser : string -> string -> string.

(** The owner of the list: [onAuthorsUpdated current next] is the
    [props.authors] the component holds once the callback has returned,
    where [current] is what it held before and [next] is the list it
    passed.  An owner that re-renders later returns [current]; one that
    re-renders at once returns [next]. *)
Variable onAuthorsUpdated : list Author -> list Author -> list Author.

Definition getEmailAddressForUser (user : KnownUserHit) : string :=
  match hit_email user with
  | Some email =>
      if nonEmpty email then email
      else getLegacyStealthEmailForUser (hit_username user) (hit_endpoint user)
  | None => getLegacyStealthEmailForUser (hit_username user) (hit_endpoint user)
  end.

Definition authorFromUserHit (user : KnownUserHit) : Author :=
  Known {| known_name := orElse (hit_name user) (hit_username user);
           known_email := getEmailAddressForUser user;
           known_username := Some (hit_username user) |}.

(** [memoizeOne] caches on the identity of [authors]; the function it
    wraps is this one. *)
Definition getAutocompleteItemFilter (authors : list Author) (item : UserHit) : bool :=
  match item with
  | UnknownUser _ => true
  | KnownUser h =>
      let usernames := map username authors in
      negb (existsb (fun u => strictEq u (Some (hit_username h))) usernames)
  end.

(** [a.username?.toLowerCase()] *)
Definition lowerUsername (a : Author) : option string :=
  option_map toLowerCase (username a).

(** [this.props.onAuthorsUpdated(addedAuthors)] *)
Definition emitAuthorsUpdated (addedAuthors : list Author) : M unit :=
  fun w =>
    (tt, mkWorld (onAuthorsUpdated (authors w) addedAuthors)
           (focusedAuthorIndex w) (inputRef w)
           (updates w ++ [addedAuthors]) (lookups w)).

(** Focusing the input or a handle acts on the rendering surface only:
    the input answers a focus with [onInputFocus], which stores the
    [null] that is stored here anyway, and a handle has no focus
    handler. *)
Definition focusAuthorHandle (index : option Z) : M unit :=
  setFocusedAuthorIndex index.

Definition removeAuthor (index : Z) : M unit :=
  authors <- gets authors ;;
  let len := Z.of_nat (length authors) in
  when ((0 <=? index) && (index <? len))
    (let newAuthors :=
       slice authors 0 (Some index) ++ slice authors (index + 1) None in
     let newFocusedAuthorIndex :=
       if index =? len - 1 then None else Some index in
     focusAuthorHandle newFocusedAuthorIndex ;;
     emitAuthorsUpdated newAuthors).

Definition focusPreviousAuthor : M unit :=
  focusedAuthorIndex <- gets focusedAuthorIndex ;;
  authors <- gets authors ;;
  match focusedAuthorIndex with
  | None => focusAuthorHandle (Some (Z.of_nat (length authors) - 1))
  | Some i => when (0 <? i) (focusAuthorHandle (Some (i - 1)))
  end.

Definition focusNextAuthor : M unit :=
  focusedAuthorIndex <- gets focusedAuthorIndex ;;
  authors <- gets authors ;;
  match focusedAuthorIndex with
  | Some i =>
      if i <? Z.of_nat (length authors) - 1
      then focusAuthorHandle (Some (i + 1))
      else focusAuthorHandle None
  | None => focusAuthorHandle None
  end.

Definition onInputFocus : M unit := setFocusedAuthorIndex None.

Definition onAuthorKeyDown (key : string) : M unit :=
  if String.eqb key "ArrowLeft" then focusPreviousAuthor
  else if String.eqb key "ArrowRight" then focusNextAuthor
  else
    focusedAuthorIndex <- gets focusedAuthorIndex ;;
    match focusedAuthorIndex with
    | Some i =>
        when (String.eqb key "Backspace" || String.eqb key "Delete")
          (removeAuthor i)
    | None => ret tt
    end.

(** The test of [updateUnknownAuthor]: same lowered username, and [a]
    not yet known. *)
Definition isTarget (author a : Author) : bool :=
  strictEq (lowerUsername a) (lowerUsername author) && negb (isKnownAuthor a).

Definition updateUnknownAuthor (author : Author) : M unit :=
  authors <- gets authors ;;
  let newAuthors :=
    map (fun a => if isTarget author a then author else a) authors in
  emitAuthorsUpdated newAuthors.

(** [attemptUnknownAuthorSearch] up to its [await]. *)
Definition attemptUnknownAuthorSearch (author : UnknownAuthor) : M unit :=
  authors <- gets authors ;;
  let knownAuthor :=
    find (fun a => strictEq (lowerUsername a)
                     (Some (toLowerCase (unknown_username author))))
         (filter isKnownAuthor authors) in
  match knownAuthor with
  | Some knownAuthor => updateUnknownAuthor knownAuthor
  | None => exactMatch (unknown_username author)
  end.

(** [attemptUnknownAuthorSearch] from its [await] on, once the lookup
    has answered [hit] ([None] is [null]); it runs on the world as it is
    by then. *)
Definition attemptUnknownAuthorSearch_resume
    (author : UnknownAuthor) (hit : option UserHit) : M unit :=
  match hit with
  | None | Some (UnknownUser _) =>
      let erroredUnknownAuthor :=
        {| unknown_username := unknown_username author;
           unknown_state := error |} in
      updateUnknownAuthor (Unknown erroredUnknownAuthor)
  | Some (KnownUser hit) =>
      let hitAuthor := authorFromUserHit hit in
      updateUnknownAuthor hitAuthor
  end.

(** [onCoAuthorsValueChanged] measures text and sets a minimum width
    on the rendering surface; it touches nothing of [World]. *)
Definition onCoAuthorsValueChanged (value : string) : M unit := ret tt.

Definition onAutocompleteItemSelected (item : UserHit) : M unit :=
  let authorToAdd :=
    match item with
    | KnownUser h => authorFromUserHit h
    | UnknownUser u =>
        Unknown {| unknown_username := u; unknown_state := searching |}
    end in
  authors <- gets authors ;;
  let newAuthors := authors ++ [authorToAdd] in
  emitAuthorsUpdated newAuthors ;;
  match authorToAdd with
  | Unknown u => attemptUnknownAuthorSearch u
  | Known _ => ret tt
  end ;;
  input <- gets inputRef ;;
  match input with
  | Some _ => clearInput ;; onCoAuthorsValueChanged EmptyString
  | None => ret tt
  end.

(** The handler answers whether it called [event.preventDefault()]. *)
Definition onInputKeyDown (key : string) : M bool :=
  input <- gets inputRef ;;
  match input with
  | None => ret false
  | Some _ =>
      caretAtStart <- gets (fun w =>
        match inputRef w with
        | Some i => selectionStart i =? 0
        | None => false
        end) ;;
      authors <- gets authors ;;
      when (String.eqb key "Backspace" && caretAtStart)
        (removeAuthor (Z.of_nat (length authors) - 1)) ;;
      caretAtStart <- gets (fun w =>
        match inputRef w with
        | Some i => selectionStart i =? 0
        | None => false
        end) ;;
      when (String.eqb key "ArrowLeft" && caretAtStart) focusPreviousAuthor ;;
      input <- gets inputRef ;;
      match input with
      | Some i =>
          if String.eqb key " "
             && (selectionStart i =? Z.of_nat (String.length (value i)))
          then
            let value := trim (value i) in
            when (negb (String.length value =? 0)%nat)
              (onAutocompleteItemSelected (UnknownUser value)) ;;
            ret true
          else ret false
      | None => ret false
      end
  end.

(** The focus is the text field, or a position of the author list. *)
Definition focusInRange (w : World) : Prop :=
  match focusedAuthorIndex w with
  | None => True
  | Some i => 0 <= i < Z.of_nat (length (authors w))
  end.

(** ** Facts about the JavaScript values *)

Lemma strictEq_true (x y : option string) : strictEq x y = true <-> x = y.
Proof.
  destruct x as [s|], y as [t|]; simpl; split; intros H;
    try discriminate; try reflexivity.
  - apply String.eqb_eq in H. now subst.
  - injection H as ->. apply String.eqb_refl.
Qed.

Lemma strictEq_false (x y : option string) : strictEq x y = false <-> x <> y.
Proof.
  split.
  - intros H E. apply strictEq_true in E. congruence.
  - intros H. destruct (strictEq x y) eqn:E; [|reflexivity].
    apply strictEq_true in E. contradiction.
Qed.

Lemma nonEmpty_true (s : string) : nonEmpty s = true <-> s <> EmptyString.
Proof.
  destruct s; unfold nonEmpty; simpl; split; intros H;
    first [reflexivity | discriminate | now elim H].
Qed.

Lemma orElse_spec (a b : string) :
  (a <> EmptyString -> orElse a b = a) /\ (a = EmptyString -> orElse a b = b).
Proof.
  split; intros H.
  - unfold orElse. now rewrite (proj2 (nonEmpty_true a) H).
  - subst a. reflexivity.
Qed.

Lemma existsb_strictEq (o : option string) (l : list (option string)) :
  existsb (fun u => strictEq u o) l = true <-> In o l.
Proof.
  rewrite existsb_exists. split.
  - intros [u [Hin Heq]]. apply strictEq_true in Heq. now subst.
  - intros Hin. exists o. split; [assumption|]. now apply strictEq_true.
Qed.

Lemma slice_prefix {A : Type} (l : list A) (i : Z) :
  0 <= i <= Z.of_nat (length l) ->
  slice l 0 (Some i) = firstn (Z.to_nat i) l.
Proof.
  intros H. unfold slice, relativeIndex. simpl.
  destruct (Z.ltb_spec i 0); [lia|].
  rewrite Z.min_l by lia. rewrite Z.min_l by lia.
  now rewrite Z.sub_0_r.
Qed.

Lemma slice_suffix {A : Type} (l : list A) (k : Z) :
  0 <= k <= Z.of_nat (length l) ->
  slice l k None = skipn (Z.to_nat k) l.
Proof.
  intros H. unfold slice, relativeIndex.
  destruct (Z.ltb_spec k 0); [lia|].
  rewrite Z.min_l by lia.
  apply firstn_all2. rewrite length_skipn. lia.
Qed.

(** ** The suggestion filter *)

Lemma filter_known_user (authors : list Author) (h : KnownUserHit) :
  getAutocompleteItemFilter authors (KnownUser h) = false
  <-> In (Some (hit_username h)) (map username authors).
Proof.
  unfold getAutocompleteItemFilter.
  rewrite negb_false_iff. apply existsb_strictEq.
Qed.

(** C7, as amended.  A known-user candidate whose username is, letter
    for letter, the username of some entry of the author list is
    excluded from the suggestions.  With one author named amy and the
    known-user candidates amy and bob, the suggestions that remain are
    bob alone. *)
Theorem suggestion_filter_excludes_listed_known_user :
  (forall (authors : list Author) (h : KnownUserHit),
      In (Some (hit_username h)) (map username authors) ->
      getAutocompleteItemFilter authors (KnownUser h) = false)
  /\ (forall (a : Author) (h1 h2 : KnownUserHit),
         username a = Some "amy"%string ->
         hit_username h1 = "amy"%string ->
         hit_username h2 = "bob"%string ->
         filter (getAutocompleteItemFilter [a]) [KnownUser h1; KnownUser h2]
         = [KnownUser h2]).
Proof.
  split.
  - intros authors h Hin. now apply filter_known_user.
  - intros a h1 h2 Ha H1 H2. simpl.
    rewrite Ha, H1, H2. reflexivity.
Qed.

(** ** From a lookup hit to an author *)

Lemma getEmailAddressForUser_public (user : KnownUserHit) (email : string) :
  hit_email user = Some email -> email <> EmptyString ->
  getEmailAddressForUser user = email.
Proof.
  intros He Hne. unfold getEmailAddressForUser. rewrite He.
  now rewrite (proj2 (nonEmpty_true email) Hne).
Qed.

Lemma getEmailAddressForUser_stealth (user : KnownUserHit) :
  hit_email user = None \/ hit_email user = Some EmptyString ->
  getEmailAddressForUser user
  = getLegacyStealthEmailForUser (hit_username user) (hit_endpoint user).
Proof.
  intros [He|He]; unfold getEmailAddressForUser; rewrite He; reflexivity.
Qed.

(** ** Running handlers *)

Lemma exec_bind {A B : Type} (m : M A) (k : A -> M B) (w : World) :
  exec (bind m k) w = exec (k (fst (m w))) (exec m w).
Proof. unfold exec, bind. now destruct (m w). Qed.

Lemma exec_ret {A : Type} (a : A) (w : World) : exec (ret a) w = w.
Proof. reflexivity. Qed.

Lemma exec_when (b : bool) (m : M unit) (w : World) :
  exec (when b m) w = if b then exec m w else w.
Proof. now destruct b. Qed.

(** ** The resolution transform *)

Lemma isTarget_known (author : Author) (k : KnownAuthor) :
  isTarget author (Known k) = false.
Proof. unfold isTarget. simpl. apply andb_false_r. Qed.

Lemma isTarget_unknown (author : Author) (u : UnknownAuthor) :
  isTarget author (Unknown u)
  = strictEq (Some (toLowerCase (unknown_username u))) (lowerUsername author).
Proof. unfold isTarget. simpl. apply andb_true_r. Qed.

Lemma updateUnknownAuthor_exec (author : Author) (w : World) :
  exec (updateUnknownAuthor author) w
  = let newAuthors :=
      map (fun a => if isTarget author a then author else a) (authors w) in
    mkWorld (onAuthorsUpdated (authors w) newAuthors)
      (focusedAuthorIndex w) (inputRef w)
      (updates w ++ [newAuthors]) (lookups w).
Proof. reflexivity. Qed.

Lemma transform_nth_error (author : Author) (l : list Author) (i : nat) (a : Author) :
  nth_error l i = Some a ->
  nth_error (map (fun a => if isTarget author a then author else a) l) i
  = Some (if isTarget author a then author else a).
Proof. intros H. rewrite nth_error_map, H. reflexivity. Qed.

Lemma transform_no_target (author : Author) (l : list Author) :
  (forall a, In a l -> isTarget author a = false) ->
  map (fun a => if isTarget author a then author else a) l = l.
Proof.
  induction l as [|a l IH]; intros H; simpl; [reflexivity|].
  rewrite (H a (or_introl eq_refl)). f_equal.
  apply IH. intros b Hb. apply H. now right.
Qed.

(** The synchronous search of [attemptUnknownAuthorSearch] finds a
    known entry exactly when the list has one with the lowered
    username. *)
Lemma known_match_found (l : list Author) (author : UnknownAuthor) (k : KnownAuthor) :
  In (Known k) l ->
  option_map toLowerCase (known_username k)
    = Some (toLowerCase (unknown_username author)) ->
  exists k0,
    find (fun a => strictEq (lowerUsername a)
                     (Some (toLowerCase (unknown_username author))))
         (filter isKnownAuthor l) = Some (Known k0)
    /\ In (Known k0) l
    /\ option_map toLowerCase (known_username k0)
       = Some (toLowerCase (unknown_username author)).
Proof.
  intros Hin Hk.
  destruct (find _ (filter isKnownAuthor l)) as [a|] eqn:Hfind.
  - apply find_some in Hfind. destruct Hfind as [Ha Hp].
    apply filter_In in Ha. destruct Ha as [Ha Hknown].
    destruct a as [k0|u]; [|discriminate].
    exists k0. repeat split; try assumption.
    now apply strictEq_true in Hp.
  - exfalso.
    assert (Hf : In (Known k) (filter isKnownAuthor l))
      by (apply filter_In; now split).
    apply (find_none _ _ Hfind) in Hf.
    apply strictEq_false in Hf. apply Hf. exact Hk.
Qed.

(** C1.  When the author list holds a known entry whose username
    equals the pending token's username up to letter case, resolving
    the token issues no exact-match lookup, and the list handed to the
    callback carries that known entry at the position of every unknown
    entry with that username, all other entries being kept. *)
Theorem known_match_resolves_without_lookup
    (w : World) (author : UnknownAuthor) (k : KnownAuthor) :
  In (Known k) (authors w) ->
  option_map toLowerCase (known_username k)
    = Some (toLowerCase (unknown_username author)) ->
  let w' := exec (attemptUnknownAuthorSearch author) w in
  lookups w' = lookups w
  /\ exists (k0 : KnownAuthor) (newAuthors : list Author),
       In (Known k0) (authors w)
       /\ option_map toLowerCase (known_username k0)
          = Some (toLowerCase (unknown_username author))
       /\ updates w' = updates w ++ [newAuthors]
       /\ length newAuthors = length (authors w)
       /\ (forall i u,
              nth_error (authors w) i = Some (Unknown u) ->
              toLowerCase (unknown_username u)
                = toLowerCase (unknown_username author) ->
              nth_error newAuthors i = Some (Known k0))
       /\ (forall i a,
              nth_error (authors w) i = Some a ->
              isKnownAuthor a = true
              \/ lowerUsername a
                 <> Some (toLowerCase (unknown_username author)) ->
              nth_error newAuthors i = Some a).
Proof.
  intros Hin Hk w'.
  destruct (known_match_found (authors w) author k Hin Hk)
    as [k0 [Hfind [Hin0 Hk0]]].
  assert (Hw' : w' = exec (updateUnknownAuthor (Known k0)) w).
  { unfold w', attemptUnknownAuthorSearch.
    rewrite exec_bind. unfold gets at 1 2, exec at 2. simpl.
    now rewrite Hfind. }
  rewrite Hw', updateUnknownAuthor_exec. simpl.
  split; [reflexivity|].
  exists k0. eexists. repeat split; try eassumption; try reflexivity.
  - apply length_map.
  - intros i u Hi Hu. rewrite (transform_nth_error _ _ _ _ Hi).
    rewrite isTarget_unknown. unfold lowerUsername. simpl.
    rewrite Hk0, Hu. simpl. now rewrite String.eqb_refl.
  - intros i a Hi Ha. rewrite (transform_nth_error _ _ _ _ Hi).
    destruct a as [ka|u]; [now rewrite isTarget_known|].
    destruct Ha as [Ha|Ha]; [discriminate|].
    rewrite isTarget_unknown. unfold lowerUsername in *. simpl in *.
    rewrite Hk0. simpl.
    destruct (String.eqb_spec (toLowerCase (unknown_username u))
                (toLowerCase (unknown_username author))) as [E|E];
      [|reflexivity].
    elim Ha. now rewrite E.
Qed.

(** What the lookup's answer puts in place of the tokens it resolves. *)
Lemma attemptUnknownAuthorSearch_resume_exec
    (author : UnknownAuthor) (hit : option UserHit) (w : World) :
  exec (attemptUnknownAuthorSearch_resume author hit) w
  = exec (updateUnknownAuthor
            match hit with
            | Some (KnownUser h) => authorFromUserHit h
            | _ => Unknown {| unknown_username := unknown_username author;
                              unknown_state := error |}
            end) w.
Proof. destruct hit as [[h|u]|]; reflexivity. Qed.


(** C5.  When no unknown entry of the current list has the username of
    the resolved author up to letter case, the resolution transform
    hands the callback a list equal, entry by entry, to the current
    one, and leaves the focus, the text field and the lookups as they
    were; being a total function, it yields this result on every
    input. *)
Theorem stale_resolution_changes_nothing (author : Author) (w : World) :
  (forall u, In (Unknown u) (authors w) ->
             Some (toLowerCase (unknown_username u)) <> lowerUsername author) ->
  exec (updateUnknownAuthor author) w
  = mkWorld (onAuthorsUpdated (authors w) (authors w))
      (focusedAuthorIndex w) (inputRef w)
      (updates w ++ [authors w]) (lookups w).
Proof.
  intros Hnone. rewrite updateUnknownAuthor_exec. simpl.
  rewrite transform_no_target; [reflexivity|].
  intros [k|u] Ha; [apply isTarget_known|].
  rewrite isTarget_unknown. apply strictEq_false. now apply Hnone.
Qed.

(** C10.  Every completion of a resolution calls the list-changed
    callback exactly once, with a list as long as the current one; when
    no entry of the current list is a target of the resolution, the
    callback is still called, and the list it receives equals the
    current list. *)
Theorem resolution_always_calls_back :
  (forall (author : Author) (w : World),
      exists newAuthors : list Author,
        updates (exec (updateUnknownAuthor author) w)
        = updates w ++ [newAuthors]
        /\ length newAuthors = length (authors w)
        /\ ((forall a, In a (authors w) -> isTarget author a = false) ->
            newAuthors = authors w))
  /\ (forall (author : UnknownAuthor) (hit : option UserHit) (w : World),
         length (updates (exec (attemptUnknownAuthorSearch_resume author hit) w))
         = S (length (updates w))).
Proof.
  split.
  - intros author w. rewrite updateUnknownAuthor_exec. simpl.
    eexists. repeat split.
    + apply length_map.
    + apply transform_no_target.
  - intros author hit w.
    rewrite attemptUnknownAuthorSearch_resume_exec, updateUnknownAuthor_exec.
    simpl. rewrite length_app. simpl. lia.
Qed.

(** ** Removing a token *)

Lemma remove_nth_before {A : Type} (l : list A) (i j : nat) :
  (i < length l)%nat -> (j < i)%nat ->
  nth_error (firstn i l ++ skipn (S i) l) j = nth_error l j.
Proof.
  intros Hi Hj.
  rewrite nth_error_app1 by (rewrite length_firstn; lia).
  rewrite nth_error_firstn.
  now rewrite (proj2 (Nat.ltb_lt j i) Hj).
Qed.

Lemma remove_nth_after {A : Type} (l : list A) (i j : nat) :
  (i < length l)%nat -> (i <= j)%nat ->
  nth_error (firstn i l ++ skipn (S i) l) j = nth_error l (S j).
Proof.
  intros Hi Hj.
  rewrite nth_error_app2 by (rewrite length_firstn; lia).
  rewrite nth_error_skipn, length_firstn.
  f_equal. lia.
Qed.

Lemma remove_nth_length {A : Type} (l : list A) (i : nat) :
  (i < length l)%nat ->
  S (length (firstn i l ++ skipn (S i) l)) = length l.
Proof.
  intros Hi. rewrite length_app, length_firstn, length_skipn. lia.
Qed.

Lemma removeAuthor_in_range (index : Z) (w : World) :
  0 <= index < Z.of_nat (length (authors w)) ->
  exec (removeAuthor index) w
  = let newAuthors :=
      firstn (Z.to_nat index) (authors w)
      ++ skipn (S (Z.to_nat index)) (authors w) in
    mkWorld (onAuthorsUpdated (authors w) newAuthors)
      (if index =? Z.of_nat (length (authors w)) - 1 then None else Some index)
      (inputRef w) (updates w ++ [newAuthors]) (lookups w).
Proof.
  intros H. unfold removeAuthor.
  rewrite exec_bind. unfold gets at 1 2, exec at 2. simpl fst. simpl snd.
  rewrite exec_when.
  rewrite (proj2 (Z.leb_le 0 index)) by lia.
  rewrite (proj2 (Z.ltb_lt index _)) by lia.
  simpl andb. cbv iota.
  rewrite slice_prefix by lia. rewrite slice_suffix by lia.
  replace (Z.to_nat (index + 1)) with (S (Z.to_nat index)) by lia.
  reflexivity.
Qed.

Lemma removeAuthor_out_of_range (index : Z) (w : World) :
  index < 0 \/ Z.of_nat (length (authors w)) <= index ->
  exec (removeAuthor index) w = w.
Proof.
  intros H. unfold removeAuthor.
  rewrite exec_bind. unfold gets at 1 2, exec at 2. simpl fst. simpl snd.
  rewrite exec_when.
  destruct (Z.leb_spec 0 index); destruct (Z.ltb_spec index (Z.of_nat (length (authors w))));
    simpl; try reflexivity; lia.
Qed.

(** C4.  Removing a token checks the index: out of range, nothing
    changes and the callback is not called.  In range, for index [i] in
    a list of [n] entries, the callback is called once with a list of
    [n - 1] entries that has the old entries before [i] in place and
    the old entries after [i] moved down by one, and the focus is none
    when [i = n - 1] and [i] otherwise. *)
Theorem removeAuthor_spec (index : Z) (w : World) :
  let n := Z.of_nat (length (authors w)) in
  let w' := exec (removeAuthor index) w in
  (index < 0 \/ n <= index -> w' = w)
  /\ (0 <= index < n ->
      exists newAuthors : list Author,
        updates w' = updates w ++ [newAuthors]
        /\ Z.of_nat (length newAuthors) = n - 1
        /\ (forall j, (j < Z.to_nat index)%nat ->
                      nth_error newAuthors j = nth_error (authors w) j)
        /\ (forall j, (Z.to_nat index <= j)%nat ->
                      nth_error newAuthors j = nth_error (authors w) (S j))
        /\ (index = n - 1 -> focusedAuthorIndex w' = None)
        /\ (index <> n - 1 -> focusedAuthorIndex w' = Some index)).
Proof.
  intros n w'. split.
  - intros H. now apply removeAuthor_out_of_range.
  - intros H. unfold w'. rewrite removeAuthor_in_range by assumption.
    unfold n in *. cbv zeta. cbn [updates focusedAuthorIndex].
    assert (Hi : (Z.to_nat index < length (authors w))%nat) by lia.
    eexists. repeat split.
    + pose proof (remove_nth_length (authors w) _ Hi). lia.
    + intros j Hj. now apply remove_nth_before.
    + intros j Hj. now apply remove_nth_after.
    + intros E. now rewrite (proj2 (Z.eqb_eq _ _) E).
    + intros E. now rewrite (proj2 (Z.eqb_neq _ _) E).
Qed.

(** ** Committing a token *)

Lemma attemptUnknownAuthorSearch_trace (author : UnknownAuthor) (w : World) :
  let w' := exec (attemptUnknownAuthorSearch author) w in
  inputRef w' = inputRef w
  /\ focusedAuthorIndex w' = focusedAuthorIndex w
  /\ exists rest, updates w' = updates w ++ rest /\ (length rest <= 1)%nat.
Proof.
  unfold attemptUnknownAuthorSearch. rewrite exec_bind.
  unfold gets at 1 2, exec at 2. simpl fst. simpl snd.
  destruct (find _ (filter isKnownAuthor (authors w))) as [a|].
  - rewrite updateUnknownAuthor_exec. simpl. repeat split.
    eexists. split; [reflexivity|]. simpl. lia.
  - simpl. repeat split. exists []. rewrite app_nil_r. split; [reflexivity|].
    simpl. lia.
Qed.

Lemma onAutocompleteItemSelected_known (h : KnownUserHit) (w : World) :
  exec (onAutocompleteItemSelected (KnownUser h)) w
  = mkWorld (onAuthorsUpdated (authors w) (authors w ++ [authorFromUserHit h]))
      (focusedAuthorIndex w)
      (match inputRef w with
       | Some _ => Some (mkInput EmptyString 0)
       | None => None
       end)
      (updates w ++ [authors w ++ [authorFromUserHit h]]) (lookups w).
Proof.
  unfold onAutocompleteItemSelected, exec, bind, gets. simpl.
  destruct (inputRef w); reflexivity.
Qed.

Lemma onAutocompleteItemSelected_unknown (u : string) (w : World) :
  let authorToAdd := {| unknown_username := u; unknown_state := searching |} in
  let w1 := exec (emitAuthorsUpdated (authors w ++ [Unknown authorToAdd])) w in
  let w2 := exec (attemptUnknownAuthorSearch authorToAdd) w1 in
  exec (onAutocompleteItemSelected (UnknownUser u)) w
  = mkWorld (authors w2) (focusedAuthorIndex w2)
      (match inputRef w2 with
       | Some _ => Some (mkInput EmptyString 0)
       | None => None
       end)
      (updates w2) (lookups w2).
Proof.
  intros authorToAdd w1 w2.
  unfold onAutocompleteItemSelected. fold authorToAdd.
  rewrite exec_bind. unfold gets at 1 2, exec at 2. simpl fst. simpl snd.
  rewrite exec_bind. fold w1. rewrite exec_bind. fold w2.
  rewrite exec_bind.
  change (exec (fun w0 : World => (inputRef w0, w0)) w2) with w2. simpl fst.
  destruct (inputRef w2) eqn:E.
  - unfold exec, bind, clearInput, onCoAuthorsValueChanged, ret. simpl.
    now rewrite E.
  - unfold exec, ret. simpl. destruct w2; simpl in *. now subst.
Qed.

Lemma onInputKeyDown_space (w : World) (i : InputElement) :
  inputRef w = Some i ->
  selectionStart i = Z.of_nat (String.length (value i)) ->
  trim (value i) <> EmptyString ->
  onInputKeyDown " " w
  = (true, exec (onAutocompleteItemSelected (UnknownUser (trim (value i)))) w).
Proof.
  intros Hi Hsel Htrim.
  unfold onInputKeyDown, bind, gets, when, exec. simpl. rewrite Hi. simpl.
  rewrite Hi. rewrite Hsel, Z.eqb_refl. simpl.
  destruct (trim (value i)) as [|c rest] eqn:E; [contradiction|].
  simpl. now destruct (onAutocompleteItemSelected _ w).
Qed.

(** The first callback of a commit.  Committing a token, by a picked
    suggestion or by a space typed at the end of a text whose trimmed
    value is not empty, calls the list-changed callback at once with
    the current list followed by exactly one new author, which is in
    state searching under the committed username when the input is no
    known identity, and leaves the text field empty.  At most one
    further callback follows within the same commit; what it carries
    depends on the owner of the list and is stated further down. *)
Theorem commit_appends_one_author :
  (forall (item : UserHit) (w : World),
      let authorToAdd :=
        match item with
        | KnownUser h => authorFromUserHit h
        | UnknownUser u =>
            Unknown {| unknown_username := u; unknown_state := searching |}
        end in
      let w' := exec (onAutocompleteItemSelected item) w in
      exists rest : list (list Author),
        updates w' = updates w ++ (authors w ++ [authorToAdd]) :: rest
        /\ (length rest <= 1)%nat
        /\ option_map value (inputRef w')
           = option_map (fun _ => EmptyString) (inputRef w))
  /\ (forall (w : World) (i : InputElement),
         inputRef w = Some i ->
         selectionStart i = Z.of_nat (String.length (value i)) ->
         trim (value i) <> EmptyString ->
         let authorToAdd :=
           Unknown {| unknown_username := trim (value i);
                      unknown_state := searching |} in
         let w' := exec (onInputKeyDown " ") w in
         exists rest : list (list Author),
           updates w' = updates w ++ (authors w ++ [authorToAdd]) :: rest
           /\ (length rest <= 1)%nat
           /\ option_map value (inputRef w') = Some EmptyString).
Proof.
  assert (Hsel : forall (item : UserHit) (w : World),
      exists rest : list (list Author),
        updates (exec (onAutocompleteItemSelected item) w)
        = updates w
          ++ (authors w
              ++ [match item with
                  | KnownUser h => authorFromUserHit h
                  | UnknownUser u =>
                      Unknown {| unknown_username := u;
                                 unknown_state := searching |}
                  end]) :: rest
        /\ (length rest <= 1)%nat
        /\ option_map value (inputRef (exec (onAutocompleteItemSelected item) w))
           = option_map (fun _ => EmptyString) (inputRef w)).
  { intros [h|u] w.
    - rewrite onAutocompleteItemSelected_known. simpl. exists [].
      repeat split; [simpl; lia|]. now destruct (inputRef w).
    - rewrite onAutocompleteItemSelected_unknown. simpl.
      match goal with
      | |- context [exec (attemptUnknownAuthorSearch ?a) ?w1] =>
          destruct (attemptUnknownAuthorSearch_trace a w1)
            as [Hin [_ [rest [Hup Hlen]]]]
      end.
      simpl in Hin, Hup. exists rest. rewrite Hup, Hin.
      rewrite <- app_assoc. simpl. repeat split; [assumption|].
      now destruct (inputRef w). }
  split; [exact Hsel|].
  intros w i Hi Hcaret Htrim authorToAdd w'.
  assert (Hw' : w' = exec (onAutocompleteItemSelected
                             (UnknownUser (trim (value i)))) w).
  { unfold w', exec at 1.
    now rewrite (onInputKeyDown_space w i Hi Hcaret Htrim). }
  rewrite Hw'.
  destruct (Hsel (UnknownUser (trim (value i))) w) as [rest [Hup [Hlen Hval]]].
  exists rest. repeat split; try assumption.
  rewrite Hval, Hi. reflexivity.
Qed.

(** ** Moving the focus *)

Lemma onInputKeyDown_left (w : World) (i : InputElement) :
  inputRef w = Some i ->
  selectionStart i = 0 ->
  focusedAuthorIndex w = None ->
  exec (onInputKeyDown "ArrowLeft") w
  = mkWorld (authors w) (Some (Z.of_nat (length (authors w)) - 1))
      (inputRef w) (updates w) (lookups w).
Proof.
  intros Hi Hsel Hfocus.
  unfold onInputKeyDown, focusPreviousAuthor, focusAuthorHandle,
    setFocusedAuthorIndex, bind, gets, when, exec, ret.
  simpl. rewrite Hi. simpl. rewrite Hi, Hsel. simpl. rewrite Hfocus. simpl.
  rewrite Hi. simpl. reflexivity.
Qed.

Lemma left_arrow_focuses_last_token (w : World) (i : InputElement) :
  inputRef w = Some i ->
  selectionStart i = 0 ->
  focusedAuthorIndex w = None ->
  authors w <> [] ->
  let w' := exec (onInputKeyDown "ArrowLeft") w in
  focusedAuthorIndex w' = Some (Z.of_nat (length (authors w)) - 1)
  /\ focusInRange w'.
Proof.
  intros Hi Hsel Hfocus Hne w'. unfold w'.
  rewrite (onInputKeyDown_left w i Hi Hsel Hfocus).
  unfold focusInRange. simpl. split; [reflexivity|].
  destruct (authors w); [contradiction|]. simpl length. lia.
Qed.

(** C6, at the input where the code departs from it.  With an empty
    author list, the focus on the text field and the caret at position
    zero, a left arrow stores the index -1: the focus state changes,
    and it is neither none nor a position of the list. *)
Theorem left_arrow_on_empty_list_stores_minus_one :
  let w0 := mkWorld [] None (Some (mkInput EmptyString 0)) [] [] in
  let w' := exec (onInputKeyDown "ArrowLeft") w0 in
  focusInRange w0
  /\ focusedAuthorIndex w' = Some (-1)
  /\ authors w' = []
  /\ ~ focusInRange w'.
Proof.
  simpl. unfold focusInRange. simpl. repeat split. lia.
Qed.

(** C8.  The known author made from a known-user hit has the hit's
    display name, or its username when the display name is empty; it
    has the hit's public email when there is one and it is not empty,
    and otherwise the stealth address computed from the username and
    the endpoint; committing the hit appends this author. *)
Theorem authorFromUserHit_spec (h : KnownUserHit) :
  exists k : KnownAuthor,
    authorFromUserHit h = Known k
    /\ known_username k = Some (hit_username h)
    /\ (hit_name h <> EmptyString -> known_name k = hit_name h)
    /\ (hit_name h = EmptyString -> known_name k = hit_username h)
    /\ (forall e, hit_email h = Some e -> e <> EmptyString ->
                  known_email k = e)
    /\ (hit_email h = None \/ hit_email h = Some EmptyString ->
        known_email k
        = getLegacyStealthEmailForUser (hit_username h) (hit_endpoint h))
    /\ (forall w : World,
           updates (exec (onAutocompleteItemSelected (KnownUser h)) w)
           = updates w ++ [authors w ++ [Known k]]).
Proof.
  eexists. split; [reflexivity|]. simpl. repeat split.
  - apply orElse_spec.
  - apply orElse_spec.
  - apply getEmailAddressForUser_public.
  - apply getEmailAddressForUser_stealth.
  - intros w. now rewrite onAutocompleteItemSelected_known.
Qed.

(** C9.  The suggestion filter admits every candidate that is not a
    known-user hit, whatever its username; it excludes a known-user
    candidate exactly when some entry of the list has the very same
    username.  Two usernames that differ only in letter case are thus
    kept apart by the filter, while resolution treats them as one: the
    candidate is admitted, and resolving the same username against the
    same list finds the known entry without a lookup. *)
Theorem suggestion_filter_is_exact_and_known_only :
  (forall (authors : list Author) (u : string),
      getAutocompleteItemFilter authors (UnknownUser u) = true)
  /\ (forall (authors : list Author) (h : KnownUserHit),
         getAutocompleteItemFilter authors (KnownUser h) = false
         <-> exists a, In a authors /\ username a = Some (hit_username h))
  /\ (forall (w : World) (k : KnownAuthor) (h : KnownUserHit) (s : string),
         authors w = [Known k] ->
         known_username k = Some s ->
         s <> hit_username h ->
         toLowerCase s = toLowerCase (hit_username h) ->
         getAutocompleteItemFilter (authors w) (KnownUser h) = true
         /\ (let w' := exec (attemptUnknownAuthorSearch
                               {| unknown_username := hit_username h;
                                  unknown_state := searching |}) w in
             lookups w' = lookups w
             /\ updates w' = updates w ++ [[Known k]])).
Proof.
  split; [reflexivity|]. split.
  - intros authors h. rewrite filter_known_user, in_map_iff.
    split; intros [a [H1 H2]]; exists a; now split.
  - intros w k h s Hw Hk Hne Hlow. split.
    + rewrite Hw. simpl. rewrite Hk. simpl.
      now rewrite (proj2 (String.eqb_neq _ _) Hne).
    + unfold attemptUnknownAuthorSearch, exec, bind, gets. simpl.
      rewrite Hw. simpl. unfold lowerUsername. simpl. rewrite Hk. simpl.
      rewrite Hlow, String.eqb_refl. simpl.
      rewrite Hw. simpl. now rewrite isTarget_known.
Qed.

(** ** Arrow keys on a focused token *)

Lemma focusPreviousAuthor_exec (w : World) :
  exec focusPreviousAuthor w
  = match focusedAuthorIndex w with
    | None =>
        exec (setFocusedAuthorIndex (Some (Z.of_nat (length (authors w)) - 1))) w
    | Some i =>
        if 0 <? i then exec (setFocusedAuthorIndex (Some (i - 1))) w else w
    end.
Proof.
  unfold focusPreviousAuthor, focusAuthorHandle, exec, bind, gets, when, ret.
  simpl. destruct (focusedAuthorIndex w) as [i|]; [|reflexivity].
  now destruct (0 <? i).
Qed.

Lemma focusNextAuthor_exec (w : World) :
  exec focusNextAuthor w
  = match focusedAuthorIndex w with
    | Some i =>
        if i <? Z.of_nat (length (authors w)) - 1
        then exec (setFocusedAuthorIndex (Some (i + 1))) w
        else exec (setFocusedAuthorIndex None) w
    | None => exec (setFocusedAuthorIndex None) w
    end.
Proof.
  unfold focusNextAuthor, focusAuthorHandle, exec, bind, gets, ret.
  simpl. destruct (focusedAuthorIndex w) as [i|]; [|reflexivity].
  now destruct (i <? Z.of_nat (length (authors w)) - 1).
Qed.

Lemma setFocusedAuthorIndex_same (w : World) :
  exec (setFocusedAuthorIndex (focusedAuthorIndex w)) w = w.
Proof. now destruct w. Qed.

(** From a focused token whose index is a position of the list, the
    left and right arrows move the focus to a position of the list or
    to the text field, and touch nothing else. *)
Theorem arrow_keys_keep_focus_in_range (key : string) (w : World) (i : Z) :
  focusedAuthorIndex w = Some i ->
  focusInRange w ->
  key = "ArrowLeft"%string \/ key = "ArrowRight"%string ->
  let w' := exec (onAuthorKeyDown key) w in
  focusInRange w'
  /\ authors w' = authors w
  /\ inputRef w' = inputRef w
  /\ updates w' = updates w
  /\ lookups w' = lookups w.
Proof.
  intros Hf Hr Hk w'. unfold w', focusInRange in *. rewrite Hf in Hr.
  destruct Hk as [->| ->]; unfold onAuthorKeyDown; simpl.
  - rewrite focusPreviousAuthor_exec, Hf.
    destruct (Z.ltb_spec 0 i); simpl; rewrite ?Hf; repeat split; lia.
  - rewrite focusNextAuthor_exec, Hf.
    destruct (Z.ltb_spec i (Z.of_nat (length (authors w)) - 1)); simpl;
      repeat split; lia.
Qed.

(** Left then right, and right then left, bring the focus back to the
    token it started from and leave the world as it was, whenever the
    first step has a neighbour to go to. *)
Theorem arrow_left_right_round_trip (w : World) (i : Z) :
  focusedAuthorIndex w = Some i ->
  (0 < i < Z.of_nat (length (authors w)) ->
   exec (onAuthorKeyDown "ArrowRight") (exec (onAuthorKeyDown "ArrowLeft") w) = w)
  /\ (0 <= i < Z.of_nat (length (authors w)) - 1 ->
      exec (onAuthorKeyDown "ArrowLeft") (exec (onAuthorKeyDown "ArrowRight") w) = w).
Proof.
  intros Hf. unfold onAuthorKeyDown. simpl. split; intros Hi.
  - rewrite focusPreviousAuthor_exec, Hf.
    rewrite (proj2 (Z.ltb_lt 0 i)) by lia.
    rewrite focusNextAuthor_exec. simpl.
    rewrite (proj2 (Z.ltb_lt (i - 1) _)) by lia.
    replace (i - 1 + 1) with i by lia.
    destruct w; simpl in *. now subst.
  - rewrite focusNextAuthor_exec, Hf.
    rewrite (proj2 (Z.ltb_lt i _)) by lia.
    rewrite focusPreviousAuthor_exec. simpl.
    rewrite (proj2 (Z.ltb_lt 0 (i + 1))) by lia.
    replace (i + 1 - 1) with i by lia.
    destruct w; simpl in *. now subst.
Qed.

(** At the ends the arrows do not wrap: a left arrow on the first
    token changes nothing, and a right arrow on the last token, or on
    an index past it, hands the focus to the text field. *)
Theorem arrows_stop_at_the_ends (w : World) (i : Z) :
  focusedAuthorIndex w = Some i ->
  (i <= 0 -> exec (onAuthorKeyDown "ArrowLeft") w = w)
  /\ (Z.of_nat (length (authors w)) - 1 <= i ->
      exec (onAuthorKeyDown "ArrowRight") w
      = exec (setFocusedAuthorIndex None) w).
Proof.
  intros Hf. unfold onAuthorKeyDown. simpl. split; intros Hi.
  - rewrite focusPreviousAuthor_exec, Hf.
    now rewrite (proj2 (Z.ltb_ge 0 i)) by lia.
  - rewrite focusNextAuthor_exec, Hf.
    now rewrite (proj2 (Z.ltb_ge i _)) by lia.
Qed.

(** ** Keys in the text field *)

Lemma removeAuthor_keeps_input (index : Z) (w : World) :
  inputRef (exec (removeAuthor index) w) = inputRef w
  /\ lookups (exec (removeAuthor index) w) = lookups w.
Proof.
  destruct (Z.leb_spec 0 index);
    [destruct (Z.ltb_spec index (Z.of_nat (length (authors w))))|].
  - rewrite removeAuthor_in_range by lia. now split.
  - rewrite removeAuthor_out_of_range by lia. now split.
  - rewrite removeAuthor_out_of_range by lia. now split.
Qed.

Lemma onInputKeyDown_backspace (w : World) (i : InputElement) :
  inputRef w = Some i ->
  selectionStart i = 0 ->
  onInputKeyDown "Backspace" w
  = (false, exec (removeAuthor (Z.of_nat (length (authors w)) - 1)) w).
Proof.
  intros Hi Hsel.
  destruct (removeAuthor_keeps_input (Z.of_nat (length (authors w)) - 1) w)
    as [Hkeep _].
  unfold exec in *.
  unfold onInputKeyDown, bind, gets, when, ret. simpl. rewrite Hi. simpl.
  rewrite Hi, Hsel. simpl.
  destruct (removeAuthor (Z.of_nat (length (authors w)) - 1) w) as [[] w1].
  simpl in *. rewrite Hkeep, Hi. reflexivity.
Qed.

Lemma firstn_pred_removelast {A : Type} (l : list A) :
  firstn (pred (length l)) l = removelast l.
Proof.
  induction l as [|a [|b l] IH]; try reflexivity.
  change (a :: firstn (pred (length (b :: l))) (b :: l) = a :: removelast (b :: l)).
  now rewrite IH.
Qed.

(** Backspace with the caret at the start of the text field removes
    the last token: the callback receives the list without its last
    entry and the focus goes to the text field.  With no token in the
    list nothing happens.  The key's default action is not prevented. *)
Theorem backspace_at_start_removes_last_token (w : World) (i : InputElement) :
  inputRef w = Some i ->
  selectionStart i = 0 ->
  let r := onInputKeyDown "Backspace" w in
  fst r = false
  /\ (authors w = [] -> snd r = w)
  /\ (authors w <> [] ->
      updates (snd r) = updates w ++ [removelast (authors w)]
      /\ focusedAuthorIndex (snd r) = None
      /\ inputRef (snd r) = inputRef w
      /\ lookups (snd r) = lookups w).
Proof.
  intros Hi Hsel r. unfold r.
  rewrite (onInputKeyDown_backspace w i Hi Hsel). simpl fst. simpl snd.
  split; [reflexivity|]. split.
  - intros He. apply removeAuthor_out_of_range. rewrite He. simpl. lia.
  - intros Hne.
    assert (Hlen : (0 < length (authors w))%nat)
      by (destruct (authors w); [contradiction|simpl; lia]).
    rewrite removeAuthor_in_range by lia.
    cbv zeta. cbn [updates focusedAuthorIndex inputRef lookups].
    rewrite Z.eqb_refl.
    replace (Z.to_nat (Z.of_nat (length (authors w)) - 1))
      with (pred (length (authors w))) by lia.
    replace (S (pred (length (authors w)))) with (length (authors w)) by lia.
    rewrite skipn_all, app_nil_r, firstn_pred_removelast.
    now repeat split.
Qed.

(** A key in the text field is ignored, and its default action left
    alone, unless it is Backspace or the left arrow with the caret at
    the start, or a space with the caret at the end of the text; every
    key is ignored while no input element is mounted. *)
Theorem input_key_ignored (key : string) (w : World) :
  (forall i, inputRef w = Some i ->
     (key = "Backspace"%string \/ key = "ArrowLeft"%string ->
      selectionStart i <> 0)
     /\ (key = " "%string ->
         selectionStart i <> Z.of_nat (String.length (value i)))) ->
  onInputKeyDown key w = (false, w).
Proof.
  intros H. unfold onInputKeyDown, bind, gets, when, ret.
  destruct (inputRef w) as [i|] eqn:Hi; [|reflexivity].
  destruct (H i eq_refl) as [Hstart Hend].
  simpl. rewrite Hi.
  destruct (String.eqb_spec key "Backspace") as [Eb|Eb]; simpl.
  - rewrite (proj2 (Z.eqb_neq _ _) (Hstart (or_introl Eb))).
    subst key. simpl. rewrite Hi. reflexivity.
  - destruct (String.eqb_spec key "ArrowLeft") as [El|El]; simpl.
    + rewrite Hi, (proj2 (Z.eqb_neq _ _) (Hstart (or_intror El))).
      subst key. simpl. rewrite Hi. reflexivity.
    + rewrite Hi.
      destruct (String.eqb_spec key " ") as [Es|Es]; simpl; [|reflexivity].
      now rewrite (proj2 (Z.eqb_neq _ _) (Hend Es)).
Qed.

(** A space at the end of a text that is empty once trimmed has its
    default action prevented, so it is not typed, and commits nothing:
    no callback, no lookup, the text and the focus as they were. *)
Theorem space_after_blank_text_commits_nothing (w : World) (i : InputElement) :
  inputRef w = Some i ->
  selectionStart i = Z.of_nat (String.length (value i)) ->
  trim (value i) = EmptyString ->
  onInputKeyDown " " w = (true, w).
Proof.
  intros Hi Hsel Htrim.
  unfold onInputKeyDown, bind, gets, when, ret. simpl. rewrite Hi. simpl.
  rewrite Hi, Hsel, Z.eqb_refl. simpl. now rewrite Htrim.
Qed.

(** ** Deleting the focused token *)

Lemma In_firstn {A : Type} (n : nat) (l : list A) (a : A) :
  In a (firstn n l) -> In a l.
Proof.
  intros H. rewrite <- (firstn_skipn n l). apply in_or_app. now left.
Qed.

Lemma In_skipn {A : Type} (n : nat) (l : list A) (a : A) :
  In a (skipn n l) -> In a l.
Proof.
  intros H. rewrite <- (firstn_skipn n l). apply in_or_app. now right.
Qed.

Lemma onAuthorKeyDown_delete (key : string) (w : World) :
  key = "Backspace"%string \/ key = "Delete"%string ->
  exec (onAuthorKeyDown key) w
  = match focusedAuthorIndex w with
    | Some i => exec (removeAuthor i) w
    | None => w
    end.
Proof.
  intros [->| ->]; unfold onAuthorKeyDown; simpl; rewrite exec_bind;
    unfold gets at 1, exec at 2; simpl;
    destruct (focusedAuthorIndex w); reflexivity.
Qed.

(** Backspace and Delete on a focused token both remove that token:
    the callback gets a list one entry shorter, made of entries of the
    old list only, and the focus that is stored is the text field or a
    position of that new list.  With the focus on the text field the
    two keys do nothing. *)
Theorem delete_removes_focused_token (key : string) (w : World) :
  key = "Backspace"%string \/ key = "Delete"%string ->
  let w' := exec (onAuthorKeyDown key) w in
  (focusedAuthorIndex w = None -> w' = w)
  /\ (forall i, focusedAuthorIndex w = Some i -> focusInRange w ->
      exists newAuthors : list Author,
        updates w' = updates w ++ [newAuthors]
        /\ newAuthors
           = firstn (Z.to_nat i) (authors w) ++ skipn (S (Z.to_nat i)) (authors w)
        /\ S (length newAuthors) = length (authors w)
        /\ (forall a, In a newAuthors -> In a (authors w))
        /\ match focusedAuthorIndex w' with
           | None => True
           | Some j => 0 <= j < Z.of_nat (length newAuthors)
           end).
Proof.
  intros Hk w'. unfold w'. rewrite (onAuthorKeyDown_delete key w Hk). split.
  - now intros ->.
  - intros i Hf Hr. unfold focusInRange in Hr. rewrite Hf in *.
    rewrite removeAuthor_in_range by assumption.
    cbv zeta. cbn [updates focusedAuthorIndex].
    assert (Hi : (Z.to_nat i < length (authors w))%nat) by lia.
    pose proof (remove_nth_length (authors w) _ Hi) as Hlen.
    eexists. split; [reflexivity|]. split; [reflexivity|].
    split; [exact Hlen|]. split.
    + intros a Ha. apply in_app_or in Ha.
      destruct Ha as [Ha|Ha]; [eapply In_firstn|eapply In_skipn]; eassumption.
    + destruct (Z.eqb_spec i (Z.of_nat (length (authors w)) - 1)); [exact I|].
      lia.
Qed.

(** ** More on the resolution transform *)

Lemma transform_idempotent (author : Author) (l : list Author) :
  let f := fun a => if isTarget author a then author else a in
  map f (map f l) = map f l.
Proof.
  intros f. rewrite map_map. apply map_ext. intros a. unfold f.
  destruct (isTarget author a) eqn:E.
  - now destruct (isTarget author author).
  - now rewrite E.
Qed.

(** Applying the same resolution twice is the same as applying it
    once: for an owner that hands the new list down at once, the second
    callback carries the list of the first. *)
Theorem resolution_is_idempotent (author : Author) (w : World) :
  (forall current next, onAuthorsUpdated current next = next) ->
  let w1 := exec (updateUnknownAuthor author) w in
  let w2 := exec (updateUnknownAuthor author) w1 in
  authors w2 = authors w1
  /\ exists newAuthors : list Author,
       updates w1 = updates w ++ [newAuthors]
       /\ updates w2 = updates w ++ [newAuthors; newAuthors].
Proof.
  intros Howner w1 w2. unfold w2, w1.
  rewrite !updateUnknownAuthor_exec. cbv zeta.
  cbn [authors updates]. rewrite !Howner, transform_idempotent.
  split; [reflexivity|]. eexists. split; [reflexivity|].
  now rewrite <- app_assoc.
Qed.

(** After a resolution, the list handed to the callback holds no
    unknown entry with the resolved username, up to letter case, other
    than the resolved author itself: none at all when the author is
    known, and only entries in state error after a failed lookup. *)
Theorem resolution_leaves_no_other_token (author : Author) (w : World) :
  exists newAuthors : list Author,
    updates (exec (updateUnknownAuthor author) w) = updates w ++ [newAuthors]
    /\ forall a, In a newAuthors ->
                 isKnownAuthor a = false ->
                 lowerUsername a = lowerUsername author ->
                 a = author.
Proof.
  rewrite updateUnknownAuthor_exec. cbv zeta. cbn [updates].
  eexists. split; [reflexivity|].
  intros a Ha Hunknown Hlow.
  apply in_map_iff in Ha. destruct Ha as [a0 [Ha0 _]].
  destruct (isTarget author a0) eqn:E; [now symmetry|].
  subst a. unfold isTarget in E.
  rewrite Hunknown, (proj2 (strictEq_true _ _) Hlow) in E. discriminate.
Qed.

(** The answer to a lookup never puts a token back into state
    searching and never takes a known entry away: an entry that is
    searching in the list handed to the callback was the same entry at
    the same position before, and a known entry stays where it was. *)
Theorem lookup_answer_only_settles
    (author : UnknownAuthor) (hit : option UserHit) (w : World) :
  exists newAuthors : list Author,
    updates (exec (attemptUnknownAuthorSearch_resume author hit) w)
    = updates w ++ [newAuthors]
    /\ (forall i u,
           nth_error newAuthors i = Some (Unknown u) ->
           unknown_state u = searching ->
           nth_error (authors w) i = Some (Unknown u))
    /\ (forall i k,
           nth_error (authors w) i = Some (Known k) ->
           nth_error newAuthors i = Some (Known k)).
Proof.
  rewrite attemptUnknownAuthorSearch_resume_exec, updateUnknownAuthor_exec.
  cbv zeta. cbn [updates]. eexists. split; [reflexivity|]. split.
  - intros i u Hi Hs. rewrite nth_error_map in Hi.
    destruct (nth_error (authors w) i) as [a|]; [|discriminate].
    simpl in Hi. injection Hi as Hi.
    destruct (isTarget _ a); [|now subst].
    destruct hit as [[h|n]|]; try discriminate;
      injection Hi as <-; discriminate.
  - intros i k Hi. rewrite (transform_nth_error _ _ _ _ Hi).
    now rewrite isTarget_known.
Qed.

(** Removing a token and applying a resolution give the same list in
    either order, whatever the index: the resolution goes by username
    and not by position. *)
Theorem removal_and_resolution_commute (index : Z) (author : Author) (w : World) :
  (forall current next, onAuthorsUpdated current next = next) ->
  authors (exec (updateUnknownAuthor author) (exec (removeAuthor index) w))
  = authors (exec (removeAuthor index) (exec (updateUnknownAuthor author) w)).
Proof.
  intros Howner.
  destruct (Z.leb_spec 0 index) as [Hlo|Hlo];
    [destruct (Z.ltb_spec index (Z.of_nat (length (authors w)))) as [Hhi|Hhi]|].
  - rewrite (removeAuthor_in_range index w) by lia.
    rewrite removeAuthor_in_range
      by (rewrite updateUnknownAuthor_exec; cbv zeta; cbn [authors];
          rewrite Howner, length_map; lia).
    rewrite !updateUnknownAuthor_exec. cbv zeta. cbn [authors].
    rewrite !Howner.
    now rewrite map_app, firstn_map, skipn_map.
  - rewrite (removeAuthor_out_of_range index w) by lia.
    rewrite removeAuthor_out_of_range; [reflexivity|].
    rewrite updateUnknownAuthor_exec. cbv zeta. cbn [authors].
    rewrite Howner, length_map. lia.
  - rewrite (removeAuthor_out_of_range index w) by lia.
    rewrite removeAuthor_out_of_range; [reflexivity|]. lia.
Qed.

(** ** Commit and resolution together *)

Lemma no_known_match_found (l : list Author) (u : string) :
  (forall k, In (Known k) l ->
             option_map toLowerCase (known_username k) <> Some (toLowerCase u)) ->
  find (fun a => strictEq (lowerUsername a) (Some (toLowerCase u)))
       (filter isKnownAuthor l) = None.
Proof.
  intros H.
  destruct (find _ (filter isKnownAuthor l)) as [a|] eqn:E; [|reflexivity].
  apply find_some in E. destruct E as [Ha Hp].
  apply filter_In in Ha. destruct Ha as [Ha Hk].
  destruct a as [k|x]; [|discriminate].
  apply strictEq_true in Hp. now elim (H k Ha).
Qed.

Lemma onAutocompleteItemSelected_lookup (u : string) (w : World) :
  let token := Unknown {| unknown_username := u; unknown_state := searching |} in
  let seen := onAuthorsUpdated (authors w) (authors w ++ [token]) in
  (forall k, In (Known k) seen ->
             option_map toLowerCase (known_username k) <> Some (toLowerCase u)) ->
  exec (onAutocompleteItemSelected (UnknownUser u)) w
  = mkWorld seen (focusedAuthorIndex w)
      (match inputRef w with
       | Some _ => Some (mkInput EmptyString 0)
       | None => None
       end)
      (updates w ++ [authors w ++ [token]]) (lookups w ++ [u]).
Proof.
  intros token seen Hnone.
  rewrite onAutocompleteItemSelected_unknown. cbv zeta.
  unfold attemptUnknownAuthorSearch at 1 2 3 4 5.
  rewrite !exec_bind. unfold gets, exec, emitAuthorsUpdated. simpl.
  fold token. fold seen. unfold lowerUsername in Hnone.
  now rewrite (no_known_match_found seen u Hnone).
Qed.

(** Committing free text that no known entry of the list carries, up
    to letter case, calls the callback exactly once, with the list
    followed by the new token, and issues exactly one lookup, for the
    committed username.  Committing a known-user suggestion issues no
    lookup. *)
Theorem commit_issues_one_lookup :
  (forall (u : string) (w : World),
      let token :=
        Unknown {| unknown_username := u; unknown_state := searching |} in
      (forall k,
          In (Known k) (onAuthorsUpdated (authors w) (authors w ++ [token])) ->
          option_map toLowerCase (known_username k) <> Some (toLowerCase u)) ->
      let w' := exec (onAutocompleteItemSelected (UnknownUser u)) w in
      updates w' = updates w ++ [authors w ++ [token]]
      /\ lookups w' = lookups w ++ [u]
      /\ focusedAuthorIndex w' = focusedAuthorIndex w)
  /\ (forall (h : KnownUserHit) (w : World),
         lookups (exec (onAutocompleteItemSelected (KnownUser h)) w)
         = lookups w).
Proof.
  split.
  - intros u w token Hnone w'. unfold w'.
    rewrite (onAutocompleteItemSelected_lookup u w Hnone). now simpl.
  - intros h w. now rewrite onAutocompleteItemSelected_known.
Qed.

(** For an owner that hands the new list down at once: a token
    committed under a username that no known entry carries is, once the
    lookup answers with a known-user hit of that username, replaced in
    place by the author made from the hit; the entries before it keep
    their number and the known ones their value, and no second lookup
    is issued. *)
Theorem committed_token_is_resolved_by_hit
    (u : string) (h : KnownUserHit) (w : World) :
  (forall current next, onAuthorsUpdated current next = next) ->
  (forall k, In (Known k) (authors w) ->
             option_map toLowerCase (known_username k) <> Some (toLowerCase u)) ->
  toLowerCase (hit_username h) = toLowerCase u ->
  let token := {| unknown_username := u; unknown_state := searching |} in
  let w1 := exec (onAutocompleteItemSelected (UnknownUser u)) w in
  let w2 := exec (attemptUnknownAuthorSearch_resume token
                    (Some (KnownUser h))) w1 in
  authors w1 = authors w ++ [Unknown token]
  /\ lookups w2 = lookups w ++ [u]
  /\ exists l : list Author,
       authors w2 = l ++ [authorFromUserHit h]
       /\ length l = length (authors w)
       /\ (forall i k, nth_error (authors w) i = Some (Known k) ->
                       nth_error l i = Some (Known k)).
Proof.
  intros Howner Hnone Hhit token w1 w2.
  assert (Hw1 : w1 = mkWorld (authors w ++ [Unknown token])
                       (focusedAuthorIndex w)
                       (match inputRef w with
                        | Some _ => Some (mkInput EmptyString 0)
                        | None => None
                        end)
                       (updates w ++ [authors w ++ [Unknown token]])
                       (lookups w ++ [u])).
  { unfold w1. rewrite onAutocompleteItemSelected_lookup.
    - cbv zeta. now rewrite Howner.
    - cbv zeta. rewrite Howner. intros k Hk.
      apply in_app_or in Hk. destruct Hk as [Hk|[Hk|[]]];
        [now apply Hnone|discriminate]. }
  unfold w2. rewrite Hw1. cbn [authors].
  split; [reflexivity|].
  rewrite attemptUnknownAuthorSearch_resume_exec, updateUnknownAuthor_exec.
  cbv zeta. cbn [authors lookups]. rewrite Howner.
  split; [reflexivity|].
  rewrite map_app. eexists. split; [|split].
  - f_equal. simpl. rewrite isTarget_unknown. unfold lowerUsername. simpl.
    now rewrite Hhit, String.eqb_refl.
  - apply length_map.
  - intros i k Hi. rewrite (transform_nth_error _ _ _ _ Hi).
    now rewrite isTarget_known.
Qed.

Lemma onAutocompleteItemSelected_match (u : string) (k : KnownAuthor) (w : World) :
  let token := Unknown {| unknown_username := u; unknown_state := searching |} in
  let seen := onAuthorsUpdated (authors w) (authors w ++ [token]) in
  In (Known k) seen ->
  option_map toLowerCase (known_username k) = Some (toLowerCase u) ->
  exists k0 : KnownAuthor,
    In (Known k0) seen
    /\ option_map toLowerCase (known_username k0) = Some (toLowerCase u)
    /\ exec (onAutocompleteItemSelected (UnknownUser u)) w
       = let second :=
           map (fun a => if isTarget (Known k0) a then Known k0 else a) seen in
         mkWorld (onAuthorsUpdated seen second) (focusedAuthorIndex w)
           (match inputRef w with
            | Some _ => Some (mkInput EmptyString 0)
            | None => None
            end)
           (updates w ++ [authors w ++ [token]; second]) (lookups w).
Proof.
  intros token seen Hin Hk.
  destruct (known_match_found seen
              {| unknown_username := u; unknown_state := searching |} k Hin Hk)
    as [k0 [Hfind [Hin0 Hk0]]].
  exists k0. split; [exact Hin0|]. split; [exact Hk0|].
  rewrite onAutocompleteItemSelected_unknown. cbv zeta.
  unfold attemptUnknownAuthorSearch at 1 2 3 4 5.
  rewrite !exec_bind. unfold gets, exec, emitAuthorsUpdated. simpl.
  fold token. fold seen. simpl in Hfind. rewrite Hfind.
  unfold updateUnknownAuthor, bind, gets, emitAuthorsUpdated. simpl.
  now rewrite <- app_assoc.
Qed.

(** For an owner that hands the new list down on a later render:
    committing free text whose username a known entry of the list
    already carries, up to letter case, issues no lookup and calls the
    callback twice; the second list, the last the owner receives, is as
    long as the list before the commit and does not hold the new
    token. *)
Theorem listed_username_commit_drops_token
    (u : string) (k : KnownAuthor) (w : World) :
  (forall current next, onAuthorsUpdated current next = current) ->
  In (Known k) (authors w) ->
  option_map toLowerCase (known_username k) = Some (toLowerCase u) ->
  let token := Unknown {| unknown_username := u; unknown_state := searching |} in
  let w' := exec (onAutocompleteItemSelected (UnknownUser u)) w in
  lookups w' = lookups w
  /\ exists second : list Author,
       updates w' = updates w ++ [authors w ++ [token]; second]
       /\ length second = length (authors w)
       /\ ~ In token second.
Proof.
  intros Howner Hin Hk token w'.
  destruct (onAutocompleteItemSelected_match u k w) as [k0 [_ [Hk0 Hexec]]];
    [now rewrite Howner|exact Hk|].
  unfold w'. rewrite Hexec. cbv zeta. rewrite !Howner.
  cbn [lookups updates]. split; [reflexivity|].
  eexists. split; [reflexivity|]. split; [apply length_map|].
  intros Habs. apply in_map_iff in Habs. destruct Habs as [a [Ha _]].
  destruct (isTarget (Known k0) a) eqn:E; [discriminate|].
  subst a. unfold token in E. rewrite isTarget_unknown in E.
  unfold lowerUsername in E. simpl in E. rewrite Hk0 in E. simpl in E.
  now rewrite String.eqb_refl in E.
Qed.

(** For an owner that hands the new list down at once: committing free
    text whose username a known entry of the list already carries, up
    to letter case, issues no lookup and calls the callback twice; in
    the second list the new token has become a copy of such a known
    entry. *)
Theorem listed_username_commit_inherits_identity
    (u : string) (k : KnownAuthor) (w : World) :
  (forall current next, onAuthorsUpdated current next = next) ->
  In (Known k) (authors w) ->
  option_map toLowerCase (known_username k) = Some (toLowerCase u) ->
  let token := Unknown {| unknown_username := u; unknown_state := searching |} in
  let w' := exec (onAutocompleteItemSelected (UnknownUser u)) w in
  lookups w' = lookups w
  /\ exists (k0 : KnownAuthor) (l : list Author),
       In (Known k0) (authors w)
       /\ option_map toLowerCase (known_username k0) = Some (toLowerCase u)
       /\ updates w' = updates w ++ [authors w ++ [token]; l ++ [Known k0]]
       /\ length l = length (authors w).
Proof.
  intros Howner Hin Hk token w'.
  destruct (onAutocompleteItemSelected_match u k w) as [k0 [Hin0 [Hk0 Hexec]]];
    [rewrite Howner; apply in_or_app; now left|exact Hk|].
  rewrite Howner in Hin0. apply in_app_or in Hin0.
  destruct Hin0 as [Hin0|[Hin0|[]]]; [|discriminate].
  unfold w'. rewrite Hexec. cbv zeta. rewrite !Howner.
  cbn [lookups updates]. split; [reflexivity|].
  exists k0. eexists. split; [exact Hin0|]. split; [exact Hk0|].
  rewrite map_app. split; [|apply length_map].
  do 3 f_equal. simpl. rewrite isTarget_unknown. unfold lowerUsername.
  simpl. rewrite Hk0. simpl. now rewrite String.eqb_refl.
Qed.

(** ** The filter after a commit *)

Lemma filter_excludes_in_longer_list
    (before after l : list Author) (item : UserHit) :
  getAutocompleteItemFilter l item = false ->
  getAutocompleteItemFilter (before ++ l ++ after) item = false.
Proof.
  destruct item as [h|n]; [|discriminate].
  rewrite !filter_known_user, !map_app. intros H.
  apply in_or_app. right. apply in_or_app. now left.
Qed.

(** Once a known-user suggestion has been committed it is no longer
    suggested: the filter built from the list handed to the callback
    excludes it, and so does the filter of any list that contains that
    list. *)
Theorem committed_suggestion_is_filtered_out (h : KnownUserHit) (w : World) :
  exists newAuthors : list Author,
    updates (exec (onAutocompleteItemSelected (KnownUser h)) w)
    = updates w ++ [newAuthors]
    /\ forall before after : list Author,
         getAutocompleteItemFilter (before ++ newAuthors ++ after) (KnownUser h)
         = false.
Proof.
  rewrite onAutocompleteItemSelected_known. cbn [updates].
  eexists. split; [reflexivity|].
  intros before after. apply filter_excludes_in_longer_list.
  apply filter_known_user. rewrite map_app. apply in_or_app. right.
  simpl. now left.
Qed.

(** ** Where lookups come from *)

Lemma focusPreviousAuthor_keeps (w : World) :
  inputRef (exec focusPreviousAuthor w) = inputRef w
  /\ lookups (exec focusPreviousAuthor w) = lookups w.
Proof.
  rewrite focusPreviousAuthor_exec.
  destruct (focusedAuthorIndex w) as [i|]; [destruct (0 <? i)|]; now split.
Qed.

Lemma focusNextAuthor_keeps (w : World) :
  inputRef (exec focusNextAuthor w) = inputRef w
  /\ lookups (exec focusNextAuthor w) = lookups w.
Proof.
  rewrite focusNextAuthor_exec.
  destruct (focusedAuthorIndex w) as [i|];
    [destruct (i <? Z.of_nat (length (authors w)) - 1)|]; now split.
Qed.

Lemma onAuthorKeyDown_keeps_lookups (key : string) (w : World) :
  lookups (exec (onAuthorKeyDown key) w) = lookups w.
Proof.
  unfold onAuthorKeyDown.
  destruct (String.eqb key "ArrowLeft"); [apply focusPreviousAuthor_keeps|].
  destruct (String.eqb key "ArrowRight"); [apply focusNextAuthor_keeps|].
  rewrite exec_bind. unfold gets at 1, exec at 2. simpl.
  destruct (focusedAuthorIndex w) as [i|]; [|reflexivity].
  rewrite exec_when.
  destruct (_ || _); [apply removeAuthor_keeps_input|reflexivity].
Qed.

Lemma onInputKeyDown_keeps_lookups (key : string) (w : World) :
  key <> " "%string ->
  lookups (exec (onInputKeyDown key) w) = lookups w.
Proof.
  intros Hkey. unfold onInputKeyDown.
  rewrite exec_bind. unfold gets at 1, exec at 2. simpl fst. simpl snd.
  destruct (inputRef w) as [i|] eqn:Hi; [|reflexivity].
  rewrite exec_bind. unfold exec at 2. simpl fst. simpl snd.
  rewrite exec_bind. unfold exec at 2. simpl fst. simpl snd.
  rewrite exec_bind.
  set (w1 := exec (when _ _) w).
  assert (H1 : inputRef w1 = inputRef w /\ lookups w1 = lookups w).
  { unfold w1. rewrite exec_when.
    destruct (_ && _); [apply removeAuthor_keeps_input|now split]. }
  clearbody w1.
  rewrite exec_bind. unfold exec at 2. simpl fst. simpl snd.
  rewrite exec_bind.
  set (w2 := exec (when _ _) w1).
  assert (H2 : inputRef w2 = inputRef w1 /\ lookups w2 = lookups w1).
  { unfold w2. rewrite exec_when.
    destruct (_ && _); [apply focusPreviousAuthor_keeps|now split]. }
  clearbody w2.
  rewrite exec_bind. unfold exec at 2. simpl fst. simpl snd.
  destruct (inputRef w2) as [i2|];
    [|unfold exec, ret; simpl; destruct H1, H2; congruence].
  rewrite (proj2 (String.eqb_neq key " ") Hkey). simpl.
  unfold exec, ret. simpl. destruct H1, H2. congruence.
Qed.

(** Lookups are issued by commits only: no key on a token, no key in
    the text field other than a space, no removal and no answer to an
    earlier lookup ever calls the provider. *)
Theorem lookups_come_from_commits_only :
  (forall (key : string) (w : World),
      lookups (exec (onAuthorKeyDown key) w) = lookups w)
  /\ (forall (key : string) (w : World),
         key <> " "%string ->
         lookups (exec (onInputKeyDown key) w) = lookups w)
  /\ (forall (index : Z) (w : World),
         lookups (exec (removeAuthor index) w) = lookups w)
  /\ (forall (author : UnknownAuthor) (hit : option UserHit) (w : World),
         lookups (exec (attemptUnknownAuthorSearch_resume author hit) w)
         = lookups w).
Proof.
  split; [exact onAuthorKeyDown_keeps_lookups|].
  split; [exact onInputKeyDown_keeps_lookups|].
  split; [intros index w; apply removeAuthor_keeps_input|].
  intros author hit w.
  now rewrite attemptUnknownAuthorSearch_resume_exec, updateUnknownAuthor_exec.
Qed.

(** ** The focus stays on the list *)

Section FocusInvariant.

Hypothesis owner_rerenders :
  forall current next,
    onAuthorsUpdated current next = current
    \/ onAuthorsUpdated current next = next.

Lemma removeAuthor_keeps_focus_in_range (index : Z) (w : World) :
  focusInRange w -> focusInRange (exec (removeAuthor index) w).
Proof.
  intros Hr.
  destruct (Z.leb_spec 0 index) as [Hlo|Hlo];
    [destruct (Z.ltb_spec index (Z.of_nat (length (authors w)))) as [Hhi|Hhi]|];
    try (rewrite removeAuthor_out_of_range by lia; exact Hr).
  rewrite removeAuthor_in_range by lia. unfold focusInRange.
  cbv zeta. cbn [focusedAuthorIndex authors].
  destruct (Z.eqb_spec index (Z.of_nat (length (authors w)) - 1)); [exact I|].
  assert (Hi : (Z.to_nat index < length (authors w))%nat) by lia.
  pose proof (remove_nth_length (authors w) _ Hi) as Hlen.
  destruct (owner_rerenders (authors w)
              (firstn (Z.to_nat index) (authors w)
               ++ skipn (S (Z.to_nat index)) (authors w))) as [-> | ->]; lia.
Qed.

Lemma updateUnknownAuthor_keeps_focus_in_range (author : Author) (w : World) :
  focusInRange w -> focusInRange (exec (updateUnknownAuthor author) w).
Proof.
  intros Hr. rewrite updateUnknownAuthor_exec. unfold focusInRange in *.
  simpl. destruct (focusedAuthorIndex w) as [i|]; [|exact I].
  match goal with
  | |- context [onAuthorsUpdated ?c ?n] =>
      destruct (owner_rerenders c n) as [-> | ->]
  end; [exact Hr|]. now rewrite length_map.
Qed.

Lemma attemptUnknownAuthorSearch_keeps_focus_in_range
    (author : UnknownAuthor) (w : World) :
  focusInRange w -> focusInRange (exec (attemptUnknownAuthorSearch author) w).
Proof.
  intros Hr. unfold attemptUnknownAuthorSearch. rewrite exec_bind.
  unfold gets at 1 2, exec at 2. simpl fst. simpl snd.
  destruct (find _ _); [now apply updateUnknownAuthor_keeps_focus_in_range|].
  exact Hr.
Qed.

Lemma emitAuthorsUpdated_longer_keeps_focus_in_range
    (added : Author) (w : World) :
  focusInRange w ->
  focusInRange (exec (emitAuthorsUpdated (authors w ++ [added])) w).
Proof.
  intros Hr. unfold focusInRange, exec, emitAuthorsUpdated in *. simpl.
  destruct (focusedAuthorIndex w) as [i|]; [|exact I].
  destruct (owner_rerenders (authors w) (authors w ++ [added])) as [-> | ->];
    [exact Hr|]. rewrite length_app. simpl. lia.
Qed.

Lemma onAutocompleteItemSelected_keeps_focus_in_range
    (item : UserHit) (w : World) :
  focusInRange w -> focusInRange (exec (onAutocompleteItemSelected item) w).
Proof.
  intros Hr. destruct item as [h|u].
  - rewrite onAutocompleteItemSelected_known.
    apply (emitAuthorsUpdated_longer_keeps_focus_in_range (authorFromUserHit h))
      in Hr. exact Hr.
  - rewrite onAutocompleteItemSelected_unknown. cbv zeta.
    apply (emitAuthorsUpdated_longer_keeps_focus_in_range
             (Unknown {| unknown_username := u; unknown_state := searching |}))
      in Hr.
    apply (attemptUnknownAuthorSearch_keeps_focus_in_range
             {| unknown_username := u; unknown_state := searching |}) in Hr.
    exact Hr.
Qed.

Lemma focusPreviousAuthor_keeps_focus_in_range (w : World) :
  focusInRange w ->
  focusedAuthorIndex w <> None \/ authors w <> [] ->
  focusInRange (exec focusPreviousAuthor w).
Proof.
  intros Hr Hne. rewrite focusPreviousAuthor_exec. unfold focusInRange in *.
  destruct (focusedAuthorIndex w) as [i|] eqn:Hf.
  - destruct (Z.ltb_spec 0 i); simpl; [lia|now rewrite Hf].
  - simpl. destruct Hne as [Hne|Hne]; [congruence|].
    destruct (authors w); [contradiction|]. simpl length. lia.
Qed.

Lemma focusNextAuthor_keeps_focus_in_range (w : World) :
  focusInRange w -> focusInRange (exec focusNextAuthor w).
Proof.
  intros Hr. rewrite focusNextAuthor_exec. unfold focusInRange in *.
  destruct (focusedAuthorIndex w) as [i|]; [|exact I].
  destruct (Z.ltb_spec i (Z.of_nat (length (authors w)) - 1)); simpl;
    [lia|exact I].
Qed.

Lemma onAuthorKeyDown_keeps_focus_in_range (key : string) (w : World) :
  focusInRange w ->
  focusedAuthorIndex w <> None \/ authors w <> [] ->
  focusInRange (exec (onAuthorKeyDown key) w).
Proof.
  intros Hr Hne. unfold onAuthorKeyDown.
  destruct (String.eqb key "ArrowLeft");
    [now apply focusPreviousAuthor_keeps_focus_in_range|].
  destruct (String.eqb key "ArrowRight");
    [now apply focusNextAuthor_keeps_focus_in_range|].
  rewrite exec_bind. unfold gets at 1, exec at 2. simpl.
  destruct (focusedAuthorIndex w) as [i|] eqn:Hf; [|exact Hr].
  rewrite exec_when.
  destruct (_ || _); [now apply removeAuthor_keeps_focus_in_range|exact Hr].
Qed.

Lemma onInputKeyDown_keeps_focus_in_range (key : string) (w : World) :
  focusInRange w ->
  focusedAuthorIndex w <> None \/ authors w <> [] ->
  focusInRange (exec (onInputKeyDown key) w).
Proof.
  intros Hr Hne. unfold onInputKeyDown.
  rewrite exec_bind. unfold gets at 1, exec at 2. simpl fst. simpl snd.
  destruct (inputRef w) as [i|] eqn:Hi; [|exact Hr].
  rewrite exec_bind. unfold exec at 2. simpl fst. simpl snd.
  rewrite exec_bind. unfold exec at 2. simpl fst. simpl snd.
  rewrite exec_bind.
  set (w1 := exec (when _ _) w).
  assert (H1 : focusInRange w1
               /\ (String.eqb key "ArrowLeft" = true -> w1 = w)).
  { unfold w1. rewrite exec_when.
    destruct (String.eqb_spec key "Backspace") as [->|Hk]; simpl.
    - split; [|discriminate].
      destruct (match inputRef w with Some _ => _ | None => _ end);
        [now apply removeAuthor_keeps_focus_in_range|exact Hr].
    - now split. }
  clearbody w1. destruct H1 as [Hr1 Hsame].
  rewrite exec_bind. unfold exec at 2. simpl fst. simpl snd.
  rewrite exec_bind.
  set (w2 := exec (when _ _) w1).
  assert (Hr2 : focusInRange w2).
  { unfold w2. rewrite exec_when.
    destruct (String.eqb key "ArrowLeft") eqn:Hk; simpl; [|exact Hr1].
    destruct (match inputRef w1 with Some _ => _ | None => _ end);
      [|exact Hr1].
    rewrite (Hsame eq_refl) in *.
    now apply focusPreviousAuthor_keeps_focus_in_range. }
  clearbody w2.
  rewrite exec_bind. unfold exec at 2. simpl fst. simpl snd.
  destruct (inputRef w2) as [i2|]; [|exact Hr2].
  destruct (_ && _); [|exact Hr2].
  rewrite exec_bind. rewrite exec_when.
  destruct (negb _); [|exact Hr2].
  now apply onAutocompleteItemSelected_keeps_focus_in_range.
Qed.

(** As long as the owner answers a callback by handing down the list
    it had or the list it was given, every handler keeps the focus on
    the text field or on a position of the list, with one exception: a
    left arrow while the text field has the focus and the list is
    empty. *)
Theorem handlers_keep_focus_in_range (w : World) :
  focusInRange w ->
  (forall item, focusInRange (exec (onAutocompleteItemSelected item) w))
  /\ (forall author hit,
         focusInRange (exec (attemptUnknownAuthorSearch_resume author hit) w))
  /\ focusInRange (exec onInputFocus w)
  /\ (focusedAuthorIndex w <> None \/ authors w <> [] ->
      forall key,
        focusInRange (exec (onAuthorKeyDown key) w)
        /\ focusInRange (exec (onInputKeyDown key) w)).
Proof.
  intros Hr.
  split; [intros item; now apply onAutocompleteItemSelected_keeps_focus_in_range|].
  split.
  { intros author hit. rewrite attemptUnknownAuthorSearch_resume_exec.
    now apply updateUnknownAuthor_keeps_focus_in_range. }
  split; [exact I|].
  intros Hne key. split.
  - now apply onAuthorKeyDown_keeps_focus_in_range.
  - now apply onInputKeyDown_keeps_focus_in_range.
Qed.

End FocusInvariant.

End AuthorInput.

(** ** The component on concrete inputs *)

Example commit_then_hit :
  let w1 := exec (onInputKeyDown asciiToLowerCase trimSpaces sampleStealthEmail
                    rendersLater " ") (typing [] "amy") in
  let w2 := exec (attemptUnknownAuthorSearch_resume asciiToLowerCase
                    sampleStealthEmail rendersLater (pending "amy")
                    (Some (KnownUser amyHit)))
                 (mkWorld [Unknown (pending "amy")] None (inputRef w1) [] []) in
  updates w1 = [[Unknown (pending "amy")]]
  /\ lookups w1 = ["amy"%string]
  /\ option_map value (inputRef w1) = Some EmptyString
  /\ updates w2 = [[Known amy]].
Proof. repeat split. Qed.

Example two_commits_then_no_match :
  updates (exec (attemptUnknownAuthorSearch_resume asciiToLowerCase
                   sampleStealthEmail rendersLater (pending "bob") None)
             (mkWorld [Unknown (pending "bob"); Unknown (pending "bob")]
                None None [] []))
  = [[Unknown (failed "bob"); Unknown (failed "bob")]].
Proof. reflexivity. Qed.

(** Committing a username that a known entry of the list already has:
    the search finds the entry at once and calls back a second time,
    with the transform of the list the component holds by then. *)
Example commit_of_listed_username :
  updates (exec (onAutocompleteItemSelected asciiToLowerCase sampleStealthEmail
                   rendersLater (UnknownUser "amy")) (typing [Known amy] "amy"))
  = [[Known amy; Unknown (pending "amy")]; [Known amy]]
  /\ updates (exec (onAutocompleteItemSelected asciiToLowerCase
                      sampleStealthEmail rendersAtOnce (UnknownUser "amy"))
                (typing [Known amy] "amy"))
     = [[Known amy; Unknown (pending "amy")]; [Known amy; Known amy]].
Proof. split; reflexivity. Qed.

Example trimSpaces_run : trimSpaces "  amy " = "amy"%string.
Proof. reflexivity. Qed.

(** C7, refuted as stated: a free-text candidate named like an entry
    of the list is not excluded. *)
Lemma listed_username_not_always_excluded :
  ~ (forall (authors : list Author) (item : UserHit),
        In (Some (item_username item)) (map username authors) ->
        getAutocompleteItemFilter authors item = false).
Proof.
  intros H.
  specialize (H [Unknown (pending "amy")] (UnknownUser "amy")
                (or_introl eq_refl)).
  discriminate H.
Qed.

(** ** The theorems at concrete inputs *)

Lemma suggestion_filter_excludes_listed_known_user_witness :
  In (Some (hit_username amyHit)) (map username [Known amy])
  /\ getAutocompleteItemFilter [Known amy] (KnownUser amyHit) = false
  /\ username (Unknown (pending "amy")) = Some "amy"%string
  /\ hit_username amyHit = "amy"%string
  /\ hit_username bobHit = "bob"%string
  /\ filter (getAutocompleteItemFilter [Unknown (pending "amy")])
       [KnownUser amyHit; KnownUser bobHit]
     = [KnownUser bobHit].
Proof.
  assert (Hin : In (Some (hit_username amyHit)) (map username [Known amy]))
    by (simpl; auto).
  split; [exact Hin|].
  split; [exact (proj1 suggestion_filter_excludes_listed_known_user
                   [Known amy] amyHit Hin)|].
  repeat (split; [reflexivity|]).
  exact (proj2 suggestion_filter_excludes_listed_known_user
           (Unknown (pending "amy")) amyHit bobHit
           eq_refl eq_refl eq_refl).
Defined.

Lemma known_match_resolves_without_lookup_witness :
  let w := typing [Known amy; Unknown (pending "Amy")] "AMY" in
  let author := pending "AMY" in
  In (Known amy) (authors w)
  /\ option_map asciiToLowerCase (known_username amy)
     = Some (asciiToLowerCase (unknown_username author))
  /\ (let w' := exec (attemptUnknownAuthorSearch asciiToLowerCase
                        rendersLater author) w in
      lookups w' = lookups w
      /\ exists (k0 : KnownAuthor) (newAuthors : list Author),
           In (Known k0) (authors w)
           /\ option_map asciiToLowerCase (known_username k0)
              = Some (asciiToLowerCase (unknown_username author))
           /\ updates w' = updates w ++ [newAuthors]
           /\ length newAuthors = length (authors w)
           /\ (forall i u,
                  nth_error (authors w) i = Some (Unknown u) ->
                  asciiToLowerCase (unknown_username u)
                    = asciiToLowerCase (unknown_username author) ->
                  nth_error newAuthors i = Some (Known k0))
           /\ (forall i a,
                  nth_error (authors w) i = Some a ->
                  isKnownAuthor a = true
                  \/ lowerUsername asciiToLowerCase a
                     <> Some (asciiToLowerCase (unknown_username author)) ->
                  nth_error newAuthors i = Some a)).
Proof.
  intros w author.
  assert (Hin : In (Known amy) (authors w)) by (simpl; auto).
  split; [exact Hin|]. split; [reflexivity|].
  exact (known_match_resolves_without_lookup asciiToLowerCase rendersLater
           w author amy Hin eq_refl).
Defined.



Lemma stale_resolution_changes_nothing_witness :
  let w := typing [Known amy; Unknown (pending "bob")] "" in
  let author := Unknown (failed "carol") in
  (forall u, In (Unknown u) (authors w) ->
             Some (asciiToLowerCase (unknown_username u))
             <> lowerUsername asciiToLowerCase author)
  /\ exec (updateUnknownAuthor asciiToLowerCase rendersLater author) w
     = mkWorld (rendersLater (authors w) (authors w))
         (focusedAuthorIndex w) (inputRef w)
         (updates w ++ [authors w]) (lookups w).
Proof.
  intros w author.
  assert (Hnone : forall u, In (Unknown u) (authors w) ->
                    Some (asciiToLowerCase (unknown_username u))
                    <> lowerUsername asciiToLowerCase author).
  { intros u [Hu|[Hu|[]]]; [discriminate Hu|].
    injection Hu as <-. discriminate. }
  split; [exact Hnone|].
  exact (stale_resolution_changes_nothing asciiToLowerCase rendersLater
           author w Hnone).
Defined.

Lemma resolution_always_calls_back_witness :
  let w := typing [Known amy; Unknown (pending "bob")] "" in
  let author := Unknown (failed "carol") in
  (forall a, In a (authors w) -> isTarget asciiToLowerCase author a = false)
  /\ exists newAuthors : list Author,
       updates (exec (updateUnknownAuthor asciiToLowerCase rendersLater author) w)
       = updates w ++ [newAuthors]
       /\ length newAuthors = length (authors w)
       /\ newAuthors = authors w.
Proof.
  intros w author.
  assert (Hnone : forall a, In a (authors w) ->
                    isTarget asciiToLowerCase author a = false).
  { intros a [Ha|[Ha|[]]]; subst a; reflexivity. }
  split; [exact Hnone|].
  destruct (proj1 (resolution_always_calls_back asciiToLowerCase
                     sampleStealthEmail rendersLater) author w)
    as [newAuthors [Hup [Hlen Hsame]]].
  exists newAuthors. split; [exact Hup|]. split; [exact Hlen|].
  exact (Hsame Hnone).
Defined.

Lemma removeAuthor_spec_witness :
  let w := typing [Known amy; Unknown (pending "bob"); Unknown (pending "carol")]
             "" in
  let n := Z.of_nat (length (authors w)) in
  (3 < 0 \/ n <= 3)
  /\ exec (removeAuthor rendersLater 3) w = w
  /\ 0 <= 1 < n
  /\ (let w' := exec (removeAuthor rendersLater 1) w in
      exists newAuthors : list Author,
        updates w' = updates w ++ [newAuthors]
        /\ Z.of_nat (length newAuthors) = n - 1
        /\ (forall j, (j < Z.to_nat 1)%nat ->
                      nth_error newAuthors j = nth_error (authors w) j)
        /\ (forall j, (Z.to_nat 1 <= j)%nat ->
                      nth_error newAuthors j = nth_error (authors w) (S j))
        /\ (1 = n - 1 -> focusedAuthorIndex w' = None)
        /\ (1 <> n - 1 -> focusedAuthorIndex w' = Some 1)).
Proof.
  intros w n.
  assert (Hout : 3 < 0 \/ n <= 3) by (right; vm_compute; discriminate).
  assert (Hin : 0 <= 1 < n) by (vm_compute; split; [discriminate|reflexivity]).
  split; [exact Hout|].
  split; [exact (proj1 (removeAuthor_spec rendersLater 3 w) Hout)|].
  split; [exact Hin|].
  exact (proj2 (removeAuthor_spec rendersLater 1 w) Hin).
Defined.

Lemma commit_appends_one_author_witness :
  let w := typing [Known amy] " bob" in
  let i := {| value := " bob"; selectionStart := 4 |} in
  inputRef w = Some i
  /\ selectionStart i = Z.of_nat (String.length (value i))
  /\ trimSpaces (value i) <> EmptyString
  /\ (let authorToAdd := Unknown (pending (trimSpaces (value i))) in
      let w' := exec (onInputKeyDown asciiToLowerCase trimSpaces
                        sampleStealthEmail rendersLater " ") w in
      exists rest : list (list Author),
        updates w' = updates w ++ (authors w ++ [authorToAdd]) :: rest
        /\ (length rest <= 1)%nat
        /\ option_map value (inputRef w') = Some EmptyString).
Proof.
  intros w i.
  assert (Htrim : trimSpaces (value i) <> EmptyString)
    by (vm_compute; discriminate).
  split; [reflexivity|]. split; [reflexivity|]. split; [exact Htrim|].
  exact (proj2 (commit_appends_one_author asciiToLowerCase trimSpaces
                  sampleStealthEmail rendersLater)
           w i eq_refl eq_refl Htrim).
Defined.

Lemma authorFromUserHit_spec_witness :
  hit_name amyHit <> EmptyString
  /\ hit_email amyHit = Some "amy@x"%string
  /\ "amy@x"%string <> EmptyString
  /\ hit_name bobHit = EmptyString
  /\ (hit_email bobHit = None \/ hit_email bobHit = Some EmptyString)
  /\ (exists k : KnownAuthor,
         authorFromUserHit sampleStealthEmail amyHit = Known k
         /\ known_name k = "Amy"%string
         /\ known_email k = "amy@x"%string)
  /\ (exists k : KnownAuthor,
         authorFromUserHit sampleStealthEmail bobHit = Known k
         /\ known_name k = "bob"%string
         /\ known_email k = sampleStealthEmail "bob" "api.example").
Proof.
  assert (Hname : hit_name amyHit <> EmptyString) by discriminate.
  assert (Hmail : "amy@x"%string <> EmptyString) by discriminate.
  assert (Hnone : hit_email bobHit = None \/ hit_email bobHit = Some EmptyString)
    by (left; reflexivity).
  split; [exact Hname|]. split; [reflexivity|]. split; [exact Hmail|].
  split; [reflexivity|]. split; [exact Hnone|]. split.
  - destruct (authorFromUserHit_spec asciiToLowerCase sampleStealthEmail
                rendersLater amyHit)
      as [k [Hk [_ [Hn [_ [He _]]]]]].
    exists k. split; [exact Hk|]. split; [exact (Hn Hname)|].
    exact (He "amy@x"%string eq_refl Hmail).
  - destruct (authorFromUserHit_spec asciiToLowerCase sampleStealthEmail
                rendersLater bobHit)
      as [k [Hk [_ [_ [Hn [_ [He _]]]]]]].
    exists k. split; [exact Hk|]. split; [exact (Hn eq_refl)|].
    exact (He Hnone).
Defined.

Lemma suggestion_filter_is_exact_and_known_only_witness :
  let w := typing [Known amy] "" in
  let h := {| hit_username := "Amy"; hit_name := "Amy";
              hit_email := None; hit_endpoint := "api.example" |} in
  authors w = [Known amy]
  /\ known_username amy = Some "amy"%string
  /\ "amy"%string <> hit_username h
  /\ asciiToLowerCase "amy" = asciiToLowerCase (hit_username h)
  /\ getAutocompleteItemFilter (authors w) (KnownUser h) = true
  /\ (let w' := exec (attemptUnknownAuthorSearch asciiToLowerCase rendersLater
                        (pending (hit_username h))) w in
      lookups w' = lookups w
      /\ updates w' = updates w ++ [[Known amy]]).
Proof.
  intros w h.
  assert (Hne : "amy"%string <> hit_username h) by discriminate.
  split; [reflexivity|]. split; [reflexivity|]. split; [exact Hne|].
  split; [reflexivity|].
  exact (proj2 (proj2 (suggestion_filter_is_exact_and_known_only
                         asciiToLowerCase rendersLater))
           w amy h "amy"%string eq_refl eq_refl Hne eq_refl).
Defined.

(** ** The default branch of a remote *)

Lemma length_append (s t : string) :
  String.length (String.append s t) = (String.length s + String.length t)%nat.
Proof. induction s as [|c s IH]; simpl; [reflexivity|now rewrite IH]. Qed.

Lemma substring_whole (s : string) :
  String.substring 0 (String.length s) s = s.
Proof. induction s as [|c s IH]; simpl; [reflexivity|now rewrite IH]. Qed.

Lemma prefix_append (s t : string) : String.prefix s (String.append s t) = true.
Proof.
  induction s as [|c s IH]; simpl; [now destruct t|].
  now destruct (Ascii.ascii_dec c c).
Qed.

Lemma prefix_split (s ref : string) :
  String.prefix s ref = true ->
  ref = String.append s
          (String.substring (String.length s)
             (String.length ref - String.length s) ref).
Proof.
  revert ref. induction s as [|c s IH]; intros ref H; simpl.
  - now rewrite Nat.sub_0_r, substring_whole.
  - destruct ref as [|d ref]; [discriminate|]. simpl in H.
    destruct (Ascii.ascii_dec c d) as [->|]; [|discriminate].
    simpl. f_equal. now apply IH.
Qed.

Lemma append_cancel (s t t' : string) :
  String.append s t = String.append s t' -> t = t'.
Proof. induction s as [|c s IH]; simpl; intros H; [exact H|]. injection H. exact IH. Qed.

(** [getRemoteHEAD] answers a branch name exactly when the remote's
    HEAD ref is the remote's namespace followed by that name, and the
    name is not empty; in every other case, also when the ref is the
    bare namespace or lies outside it, it answers nothing. *)
Theorem getRemoteHEAD_spec
    (Repository : Type) (getSymbolicRef : Repository -> string -> option string)
    (repository : Repository) (remote branch : string) :
  let remoteNamespace :=
    String.append "refs/remotes/" (String.append remote "/") in
  getRemoteHEAD Repository getSymbolicRef repository remote = Some branch
  <-> (branch <> EmptyString
       /\ getSymbolicRef repository (String.append remoteNamespace "HEAD")
          = Some (String.append remoteNamespace branch)).
Proof.
  intros ns. unfold getRemoteHEAD. fold ns. clearbody ns.
  destruct (getSymbolicRef repository (String.append ns "HEAD")) as [ref|];
    [|split; [discriminate|intros [_ H]; discriminate]].
  split.
  - destruct (Nat.ltb_spec (String.length ns) (String.length ref)) as [Hlen|Hlen];
      [|discriminate].
    destruct (String.prefix ns ref) eqn:Hp; [|discriminate].
    simpl. intros H. injection H as H.
    pose proof (prefix_split ns ref Hp) as Hsplit. rewrite H in Hsplit.
    split; [|now rewrite Hsplit].
    intros ->. rewrite Hsplit, length_append in Hlen. simpl in Hlen. lia.
  - intros [Hne H]. injection H as ->.
    rewrite prefix_append, length_append.
    destruct branch as [|c branch]; [contradiction|].
    rewrite (proj2 (Nat.ltb_lt _ _)) by (simpl; lia). simpl andb. cbv iota.
    f_equal.
    pose proof (prefix_split ns _ (prefix_append ns (String c branch))) as Hs.
    rewrite length_append in Hs. apply append_cancel in Hs. now symmetry.
Qed.

(** ** The further theorems at concrete inputs *)

Lemma arrow_keys_keep_focus_in_range_witness :
  let w := focused threeTokens 1 in
  let key := "ArrowRight"%string in
  focusedAuthorIndex w = Some 1
  /\ focusInRange w
  /\ (key = "ArrowLeft"%string \/ key = "ArrowRight"%string)
  /\ (let w' := exec (onAuthorKeyDown rendersLater key) w in
      focusInRange w'
      /\ authors w' = authors w
      /\ inputRef w' = inputRef w
      /\ updates w' = updates w
      /\ lookups w' = lookups w).
Proof.
  intros w key.
  assert (Hr : focusInRange w) by (unfold focusInRange; simpl; lia).
  assert (Hk : key = "ArrowLeft"%string \/ key = "ArrowRight"%string)
    by (right; reflexivity).
  split; [reflexivity|]. split; [exact Hr|]. split; [exact Hk|].
  exact (arrow_keys_keep_focus_in_range rendersLater key w 1 eq_refl Hr Hk).
Defined.

Lemma arrow_left_right_round_trip_witness :
  let w := focused threeTokens 1 in
  focusedAuthorIndex w = Some 1
  /\ 0 < 1 < Z.of_nat (length (authors w))
  /\ exec (onAuthorKeyDown rendersLater "ArrowRight")
       (exec (onAuthorKeyDown rendersLater "ArrowLeft") w) = w
  /\ 0 <= 1 < Z.of_nat (length (authors w)) - 1
  /\ exec (onAuthorKeyDown rendersLater "ArrowLeft")
       (exec (onAuthorKeyDown rendersLater "ArrowRight") w) = w.
Proof.
  intros w.
  assert (H1 : 0 < 1 < Z.of_nat (length (authors w))) by (simpl; lia).
  assert (H2 : 0 <= 1 < Z.of_nat (length (authors w)) - 1) by (simpl; lia).
  split; [reflexivity|]. split; [exact H1|].
  split; [exact (proj1 (arrow_left_right_round_trip rendersLater w 1 eq_refl) H1)|].
  split; [exact H2|].
  exact (proj2 (arrow_left_right_round_trip rendersLater w 1 eq_refl) H2).
Defined.

Lemma arrows_stop_at_the_ends_witness :
  let first := focused threeTokens 0 in
  let last := focused threeTokens 2 in
  focusedAuthorIndex first = Some 0
  /\ 0 <= 0
  /\ exec (onAuthorKeyDown rendersLater "ArrowLeft") first = first
  /\ focusedAuthorIndex last = Some 2
  /\ Z.of_nat (length (authors last)) - 1 <= 2
  /\ exec (onAuthorKeyDown rendersLater "ArrowRight") last
     = exec (setFocusedAuthorIndex None) last.
Proof.
  intros first last.
  assert (H1 : 0 <= 0) by lia.
  assert (H2 : Z.of_nat (length (authors last)) - 1 <= 2) by (simpl; lia).
  split; [reflexivity|]. split; [exact H1|].
  split; [exact (proj1 (arrows_stop_at_the_ends rendersLater first 0 eq_refl) H1)|].
  split; [reflexivity|]. split; [exact H2|].
  exact (proj2 (arrows_stop_at_the_ends rendersLater last 2 eq_refl) H2).
Defined.

Lemma backspace_at_start_removes_last_token_witness :
  let w := typing threeTokens "" in
  let i := {| value := EmptyString; selectionStart := 0 |} in
  let r := onInputKeyDown asciiToLowerCase trimSpaces sampleStealthEmail
             rendersLater "Backspace" w in
  inputRef w = Some i
  /\ selectionStart i = 0
  /\ authors w <> []
  /\ fst r = false
  /\ updates (snd r) = updates w ++ [removelast (authors w)]
  /\ focusedAuthorIndex (snd r) = None
  /\ inputRef (snd r) = inputRef w
  /\ lookups (snd r) = lookups w.
Proof.
  intros w i r.
  assert (Hne : authors w <> []) by discriminate.
  split; [reflexivity|]. split; [reflexivity|]. split; [exact Hne|].
  destruct (backspace_at_start_removes_last_token asciiToLowerCase trimSpaces
              sampleStealthEmail rendersLater w i eq_refl eq_refl)
    as [Hfst [_ Hrest]].
  split; [exact Hfst|]. exact (Hrest Hne).
Defined.

Lemma input_key_ignored_witness :
  let w := typing threeTokens "ab" in
  let key := "Backspace"%string in
  (forall i, inputRef w = Some i ->
     (key = "Backspace"%string \/ key = "ArrowLeft"%string ->
      selectionStart i <> 0)
     /\ (key = " "%string ->
         selectionStart i <> Z.of_nat (String.length (value i))))
  /\ onInputKeyDown asciiToLowerCase trimSpaces sampleStealthEmail
       rendersLater key w = (false, w).
Proof.
  intros w key.
  assert (H : forall i, inputRef w = Some i ->
     (key = "Backspace"%string \/ key = "ArrowLeft"%string ->
      selectionStart i <> 0)
     /\ (key = " "%string ->
         selectionStart i <> Z.of_nat (String.length (value i)))).
  { intros i Hi. injection Hi as <-. split; [intros _|intros Hk];
      discriminate. }
  split; [exact H|].
  exact (input_key_ignored asciiToLowerCase trimSpaces sampleStealthEmail
           rendersLater key w H).
Defined.

Lemma space_after_blank_text_commits_nothing_witness :
  let w := typing threeTokens "  " in
  let i := {| value := "  "; selectionStart := 2 |} in
  inputRef w = Some i
  /\ selectionStart i = Z.of_nat (String.length (value i))
  /\ trimSpaces (value i) = EmptyString
  /\ onInputKeyDown asciiToLowerCase trimSpaces sampleStealthEmail
       rendersLater " " w = (true, w).
Proof.
  intros w i.
  split; [reflexivity|]. split; [reflexivity|]. split; [reflexivity|].
  exact (space_after_blank_text_commits_nothing asciiToLowerCase trimSpaces
           sampleStealthEmail rendersLater w i eq_refl eq_refl eq_refl).
Defined.

Lemma delete_removes_focused_token_witness :
  let w := focused threeTokens 1 in
  let key := "Delete"%string in
  (key = "Backspace"%string \/ key = "Delete"%string)
  /\ focusedAuthorIndex w = Some 1
  /\ focusInRange w
  /\ (let w' := exec (onAuthorKeyDown rendersLater key) w in
      exists newAuthors : list Author,
        updates w' = updates w ++ [newAuthors]
        /\ newAuthors
           = firstn (Z.to_nat 1) (authors w) ++ skipn (S (Z.to_nat 1)) (authors w)
        /\ S (length newAuthors) = length (authors w)
        /\ (forall a, In a newAuthors -> In a (authors w))
        /\ match focusedAuthorIndex w' with
           | None => True
           | Some j => 0 <= j < Z.of_nat (length newAuthors)
           end).
Proof.
  intros w key.
  assert (Hk : key = "Backspace"%string \/ key = "Delete"%string)
    by (right; reflexivity).
  assert (Hr : focusInRange w) by (unfold focusInRange; simpl; lia).
  split; [exact Hk|]. split; [reflexivity|]. split; [exact Hr|].
  exact (proj2 (delete_removes_focused_token rendersLater key w Hk)
           1 eq_refl Hr).
Defined.

Lemma resolution_is_idempotent_witness :
  let w := typing [Unknown (pending "bob"); Known amy; Unknown (pending "Bob")]
             "" in
  let author := Unknown (failed "bob") in
  (forall current next, rendersAtOnce current next = next)
  /\ (let w1 := exec (updateUnknownAuthor asciiToLowerCase rendersAtOnce author)
                  w in
      let w2 := exec (updateUnknownAuthor asciiToLowerCase rendersAtOnce author)
                  w1 in
      authors w2 = authors w1
      /\ exists newAuthors : list Author,
           updates w1 = updates w ++ [newAuthors]
           /\ updates w2 = updates w ++ [newAuthors; newAuthors]).
Proof.
  intros w author.
  assert (Howner : forall current next, rendersAtOnce current next = next)
    by reflexivity.
  split; [exact Howner|].
  exact (resolution_is_idempotent asciiToLowerCase rendersAtOnce author w
           Howner).
Defined.

Lemma removal_and_resolution_commute_witness :
  let w := typing [Unknown (pending "bob"); Known amy; Unknown (pending "Bob")]
             "" in
  let author := Unknown (failed "bob") in
  (forall current next, rendersAtOnce current next = next)
  /\ authors (exec (updateUnknownAuthor asciiToLowerCase rendersAtOnce author)
                (exec (removeAuthor rendersAtOnce 0) w))
     = authors (exec (removeAuthor rendersAtOnce 0)
                  (exec (updateUnknownAuthor asciiToLowerCase rendersAtOnce
                           author) w)).
Proof.
  intros w author.
  assert (Howner : forall current next, rendersAtOnce current next = next)
    by reflexivity.
  split; [exact Howner|].
  exact (removal_and_resolution_commute asciiToLowerCase rendersAtOnce 0
           author w Howner).
Defined.

Lemma commit_issues_one_lookup_witness :
  let w := typing [Known amy] "bob" in
  let u := "bob"%string in
  let token := Unknown {| unknown_username := u; unknown_state := searching |} in
  (forall k,
      In (Known k) (rendersLater (authors w) (authors w ++ [token])) ->
      option_map asciiToLowerCase (known_username k)
      <> Some (asciiToLowerCase u))
  /\ (let w' := exec (onAutocompleteItemSelected asciiToLowerCase
                        sampleStealthEmail rendersLater (UnknownUser u)) w in
      updates w' = updates w ++ [authors w ++ [token]]
      /\ lookups w' = lookups w ++ [u]
      /\ focusedAuthorIndex w' = focusedAuthorIndex w).
Proof.
  intros w u token.
  assert (Hnone : forall k,
      In (Known k) (rendersLater (authors w) (authors w ++ [token])) ->
      option_map asciiToLowerCase (known_username k)
      <> Some (asciiToLowerCase u)).
  { intros k [Hk|[]]. injection Hk as <-. discriminate. }
  split; [exact Hnone|].
  exact (proj1 (commit_issues_one_lookup asciiToLowerCase sampleStealthEmail
                  rendersLater) u w Hnone).
Defined.

Lemma committed_token_is_resolved_by_hit_witness :
  let w := typing [Unknown (pending "bob")] "Amy" in
  let u := "Amy"%string in
  let token := {| unknown_username := u; unknown_state := searching |} in
  (forall current next, rendersAtOnce current next = next)
  /\ (forall k, In (Known k) (authors w) ->
                option_map asciiToLowerCase (known_username k)
                <> Some (asciiToLowerCase u))
  /\ asciiToLowerCase (hit_username amyHit) = asciiToLowerCase u
  /\ (let w1 := exec (onAutocompleteItemSelected asciiToLowerCase
                        sampleStealthEmail rendersAtOnce (UnknownUser u)) w in
      let w2 := exec (attemptUnknownAuthorSearch_resume asciiToLowerCase
                        sampleStealthEmail rendersAtOnce token
                        (Some (KnownUser amyHit))) w1 in
      authors w1 = authors w ++ [Unknown token]
      /\ lookups w2 = lookups w ++ [u]
      /\ exists l : list Author,
           authors w2 = l ++ [authorFromUserHit sampleStealthEmail amyHit]
           /\ length l = length (authors w)
           /\ (forall i k, nth_error (authors w) i = Some (Known k) ->
                           nth_error l i = Some (Known k))).
Proof.
  intros w u token.
  assert (Howner : forall current next, rendersAtOnce current next = next)
    by reflexivity.
  assert (Hnone : forall k, In (Known k) (authors w) ->
                    option_map asciiToLowerCase (known_username k)
                    <> Some (asciiToLowerCase u)).
  { intros k [Hk|[]]. discriminate Hk. }
  split; [exact Howner|]. split; [exact Hnone|]. split; [reflexivity|].
  exact (committed_token_is_resolved_by_hit asciiToLowerCase
           sampleStealthEmail rendersAtOnce u amyHit w Howner Hnone eq_refl).
Defined.

Lemma listed_username_commit_drops_token_witness :
  let w := typing [Known amy] "Amy" in
  let u := "Amy"%string in
  let token := Unknown {| unknown_username := u; unknown_state := searching |} in
  (forall current next, rendersLater current next = current)
  /\ In (Known amy) (authors w)
  /\ option_map asciiToLowerCase (known_username amy)
     = Some (asciiToLowerCase u)
  /\ (let w' := exec (onAutocompleteItemSelected asciiToLowerCase
                        sampleStealthEmail rendersLater (UnknownUser u)) w in
      lookups w' = lookups w
      /\ exists second : list Author,
           updates w' = updates w ++ [authors w ++ [token]; second]
           /\ length second = length (authors w)
           /\ ~ In token second).
Proof.
  intros w u token.
  assert (Howner : forall current next, rendersLater current next = current)
    by reflexivity.
  assert (Hin : In (Known amy) (authors w)) by (simpl; auto).
  split; [exact Howner|]. split; [exact Hin|]. split; [reflexivity|].
  exact (listed_username_commit_drops_token asciiToLowerCase
           sampleStealthEmail rendersLater u amy w Howner Hin eq_refl).
Defined.

Lemma listed_username_commit_inherits_identity_witness :
  let w := typing [Known amy] "Amy" in
  let u := "Amy"%string in
  let token := Unknown {| unknown_username := u; unknown_state := searching |} in
  (forall current next, rendersAtOnce current next = next)
  /\ In (Known amy) (authors w)
  /\ option_map asciiToLowerCase (known_username amy)
     = Some (asciiToLowerCase u)
  /\ (let w' := exec (onAutocompleteItemSelected asciiToLowerCase
                        sampleStealthEmail rendersAtOnce (UnknownUser u)) w in
      lookups w' = lookups w
      /\ exists (k0 : KnownAuthor) (l : list Author),
           In (Known k0) (authors w)
           /\ option_map asciiToLowerCase (known_username k0)
              = Some (asciiToLowerCase u)
           /\ updates w' = updates w ++ [authors w ++ [token]; l ++ [Known k0]]
           /\ length l = length (authors w)).
Proof.
  intros w u token.
  assert (Howner : forall current next, rendersAtOnce current next = next)
    by reflexivity.
  assert (Hin : In (Known amy) (authors w)) by (simpl; auto).
  split; [exact Howner|]. split; [exact Hin|]. split; [reflexivity|].
  exact (listed_username_commit_inherits_identity asciiToLowerCase
           sampleStealthEmail rendersAtOnce u amy w Howner Hin eq_refl).
Defined.

Lemma lookups_come_from_commits_only_witness :
  let w := typing threeTokens "" in
  "Backspace"%string <> " "%string
  /\ lookups (exec (onInputKeyDown asciiToLowerCase trimSpaces
                      sampleStealthEmail rendersLater "Backspace") w)
     = lookups w.
Proof.
  intros w.
  assert (Hkey : "Backspace"%string <> " "%string) by discriminate.
  split; [exact Hkey|].
  exact (proj1 (proj2 (lookups_come_from_commits_only asciiToLowerCase
                         trimSpaces sampleStealthEmail rendersLater))
           "Backspace"%string w Hkey).
Defined.

Lemma handlers_keep_focus_in_range_witness :
  let w := focused threeTokens 2 in
  (forall current next,
      rendersLater current next = current \/ rendersLater current next = next)
  /\ focusInRange w
  /\ (focusedAuthorIndex w <> None \/ authors w <> [])
  /\ (forall item,
         focusInRange (exec (onAutocompleteItemSelected asciiToLowerCase
                               sampleStealthEmail rendersLater item) w))
  /\ (forall author hit,
         focusInRange (exec (attemptUnknownAuthorSearch_resume asciiToLowerCase
                               sampleStealthEmail rendersLater author hit) w))
  /\ focusInRange (exec onInputFocus w)
  /\ (forall key,
         focusInRange (exec (onAuthorKeyDown rendersLater key) w)
         /\ focusInRange (exec (onInputKeyDown asciiToLowerCase trimSpaces
                                  sampleStealthEmail rendersLater key) w)).
Proof.
  intros w.
  assert (Howner : forall current next,
             rendersLater current next = current
             \/ rendersLater current next = next) by (left; reflexivity).
  assert (Hr : focusInRange w) by (unfold focusInRange; simpl; lia).
  assert (Hne : focusedAuthorIndex w <> None \/ authors w <> [])
    by (left; discriminate).
  split; [exact Howner|]. split; [exact Hr|]. split; [exact Hne|].
  destruct (handlers_keep_focus_in_range asciiToLowerCase trimSpaces
              sampleStealthEmail rendersLater Howner w Hr)
    as [H1 [H2 [H3 H4]]].
  split; [exact H1|]. split; [exact H2|]. split; [exact H3|].
  exact (H4 Hne).
Defined.

Lemma resolution_leaves_no_other_token_witness :
  let w := typing [Unknown (pending "Bob"); Known amy] "" in
  let author := Unknown (failed "bob") in
  let w' := exec (updateUnknownAuthor asciiToLowerCase rendersLater author) w in
  exists a : Author,
    In a (last (updates w') [])
    /\ isKnownAuthor a = false
    /\ lowerUsername asciiToLowerCase a = lowerUsername asciiToLowerCase author
    /\ a = author.
Proof.
  intros w author w'.
  destruct (resolution_leaves_no_other_token asciiToLowerCase rendersLater
              author w) as [newAuthors [Hup Hall]].
  fold w' in Hup.
  assert (Hin : In author (last (updates w') [])) by (simpl; auto).
  exists author. split; [exact Hin|]. split; [reflexivity|].
  split; [reflexivity|].
  apply Hall; [|reflexivity|reflexivity].
  rewrite Hup, last_last in Hin. exact Hin.
Defined.

Lemma lookup_answer_only_settles_witness :
  let w := typing threeTokens "" in
  let w' := exec (attemptUnknownAuthorSearch_resume asciiToLowerCase
                    sampleStealthEmail rendersLater (pending "bob") None) w in
  nth_error (last (updates w') []) 2 = Some (Unknown (pending "carol"))
  /\ unknown_state (pending "carol") = searching
  /\ nth_error (authors w) 2 = Some (Unknown (pending "carol"))
  /\ nth_error (authors w) 0 = Some (Known amy)
  /\ nth_error (last (updates w') []) 0 = Some (Known amy).
Proof.
  intros w w'.
  destruct (lookup_answer_only_settles asciiToLowerCase sampleStealthEmail
              rendersLater (pending "bob") None w)
    as [newAuthors [Hup [Hsearching Hknown]]].
  fold w' in Hup.
  assert (Hnew : last (updates w') [] = newAuthors)
    by (rewrite Hup; apply last_last).
  assert (H2 : nth_error (last (updates w') []) 2
               = Some (Unknown (pending "carol"))) by reflexivity.
  split; [exact H2|]. split; [reflexivity|].
  split; [apply (Hsearching 2%nat); [now rewrite <- Hnew|reflexivity]|].
  split; [reflexivity|].
  rewrite Hnew. now apply (Hknown 0%nat).
Defined.

(** C3, at the input where the code departs from it.  The list holds
    the known author amy, the owner hands new props down on a later
    render, and the text amy is committed by a space at its end.  The
    callback is called with the list followed by the new token, and
    then a second time, from the search that finds amy in the list the
    component still holds, with that list alone: the last list the
    owner receives is the list before the commit, with no author
    appended. *)
Theorem commit_of_listed_username_loses_token :
  let w := typing [Known amy] "amy" in
  let r := onInputKeyDown asciiToLowerCase trimSpaces sampleStealthEmail
             rendersLater " " w in
  fst r = true
  /\ updates (snd r) = [[Known amy; Unknown (pending "amy")]; [Known amy]]
  /\ last (updates (snd r)) [] = authors w
  /\ lookups (snd r) = []
  /\ option_map value (inputRef (snd r)) = Some EmptyString.
Proof. repeat split. Qed.
